(** * score_ddpm: the DDPM experiment driver ([experiment.py])

    A shallow embedding of [Configs.sample], [Configs.train], [Configs.run]
    and [main].  The driver is orchestration code: almost every statement
    is a call into a collaborator (torch, labml, labml_nn, PIL, os).  Each
    such call is recorded in a trace, together with the gradient mode it was
    made under, and its effect on the collaborators' state is left to an
    interface record, so that the theorems hold for every implementation of
    the collaborators.

    Conventions.
    - A float tensor of shape (N, C, H, W) is a nested list of real numbers;
      floating-point rounding is not modelled.
    - A [torch.long] vector is a [list Z].
    - Counts taken from the configuration (steps, samples, epochs, sizes)
      are natural numbers: a negative size makes [torch.randn] raise before
      anything else happens.
    - Exceptions are not modelled: a collaborator call always returns. *)

From Stdlib Require Import Reals Lra Lia ZArith List Ascii String.
From stdpp Require Import base list gmap strings pretty.
Import ListNotations.

(** ** Tensors *)

Definition image := list (list (list R)).
Definition tensor := list image.
Definition byte_image := list (list (list Z)).
Definition byte_tensor := list byte_image.

(** [x.new_full((n,), t, dtype=torch.long)] *)
Definition new_full (n : nat) (t : Z) : list Z := repeat t n.

(** Elementwise operations on a 4-d tensor. *)
Definition tmap {A B : Type} (f : A -> B) (x : list (list (list (list A))))
  : list (list (list (list B))) :=
  map (map (map (map f))) x.

(** [x + s] and [x * s] with a Python scalar [s]. *)
Definition add_scalar (x : tensor) (s : R) : tensor := tmap (fun v => (v + s)%R) x.
Definition mul_scalar (x : tensor) (s : R) : tensor := tmap (fun v => (v * s)%R) x.

(** Conversion of a float to int64 truncates toward zero (values beyond the
    range of int64, infinities and NaN are outside the model). *)
Definition to_int64 (r : R) : Z :=
  if Rle_dec 0 r then Int_part r else (- Int_part (- r))%Z.

(** [Tensor.byte()]: torch converts a float to uint8 through int64, and the
    narrowing to 8 bits keeps the low byte. *)
Definition to_uint8 (r : R) : Z := (to_int64 r mod 256)%Z.
Definition byte (x : tensor) : byte_tensor := tmap to_uint8 x.


(** [np.transpose(a, (1, 2, 0))] of a C x H x W array: H x W x C with
    [out[h][w][c] = a[c][h][w]]. *)
Definition transpose_1_2_0 {A : Type} (d : A) (a : list (list (list A)))
  : list (list (list A)) :=
  let nc := length a in
  let nh := length (nth 0 a []) in
  let nw := length (nth 0 (nth 0 a []) []) in
  map (fun h =>
         map (fun w => map (fun c => nth w (nth h (nth c a []) []) d) (seq 0 nc))
             (seq 0 nw))
      (seq 0 nh).

(** [enumerate(l)] *)
Definition enumerate {A : Type} (l : list A) : list (nat * A) :=
  combine (seq 0 (length l)) l.

(** ** Paths *)

Definition ends_with_slash (s : string) : bool :=
  match rev (list_ascii_of_string s) with
  | c :: _ => if Ascii.ascii_dec c "/"%char then true else false
  | [] => true
  end.

Definition starts_with_slash (s : string) : bool :=
  match s with
  | String c _ => if Ascii.ascii_dec c "/"%char then true else false
  | EmptyString => false
  end.

(** [os.path.join(a, b)] on POSIX. *)
Definition path_join (a b : string) : string :=
  if starts_with_slash b then b
  else if ends_with_slash a then a +:+ b
  else a +:+ "/" +:+ b.

(** ** Configuration *)

(** The fields of [Configs] with a value in the class body.  The fields
    [eps_model], [diffusion], [dataset], [data_loader] and [optimizer] are
    objects created by [init]; they live in the collaborators' state. *)
Record Configs := {
  image_channels : nat;
  image_size : nat;
  n_channels : nat;
  channel_multipliers : list nat;
  is_attention : list bool;
  n_steps : nat;
  batch_size : nat;
  n_samples : nat;
  learning_rate : R;
  epochs : nat
}.

(** [Configs()]: the class defaults. *)
Definition default_configs : Configs := {|
  image_channels := 3;
  image_size := 32;
  n_channels := 64;
  channel_multipliers := [1; 2; 2; 4];
  is_attention := [false; false; false; true];
  n_steps := 1000;
  batch_size := 64;
  n_samples := 16;
  learning_rate := 0.00002%R;
  epochs := 10
|}.

(** ** Collaborator calls *)

(** One constructor per call the driver makes.  A call that returns a value
    the driver uses carries that value ([r]). *)
Inductive call : Type :=
| Now (r : string)
| PathExists (path : string) (r : bool)
| Makedirs (path : string)
| Randn (shape : list nat) (r : tensor)
| MonitIterate (name : string)
| PSample (x : tensor) (t : list Z) (r : tensor)
| TrackerSaveSample (x : tensor)
| ImageSave (path : string) (mode : string) (a : byte_image)
| AddGlobalStep
| ToDevice (inputs : tensor)
| ZeroGrad
| Loss (data : tensor) (r : R)
| Backward (l : R)
| OptimizerStep
| TrackerSaveLoss (l : R)
| MonitLoop (n : nat)
| NewLine
| SaveCheckpoint
| NewUNet (channels width : nat) (mults : list nat) (attn : list bool)
| NewDenoiseDiffusion (steps : nat)
| NewDataset
| NewDataLoader (batch : nat)
| NewAdam (lr : R)
| TrackerSetImage (name : string)
| ExperimentCreate (name : string)
| ExperimentConfigs (overrides : gmap string nat)
| AddPytorchModels
| ExperimentStart.

(** A trace entry: the gradient mode the call was made under, and the call. *)
Abbreviation entry := (bool * call)%type.

Definition is_p_sample (e : entry) : bool :=
  match e.2 with PSample _ _ _ => true | _ => false end.
Definition is_save_sample (e : entry) : bool :=
  match e.2 with TrackerSaveSample _ => true | _ => false end.
Definition is_image_save (e : entry) : bool :=
  match e.2 with ImageSave _ _ _ => true | _ => false end.
Definition is_checkpoint (e : entry) : bool :=
  match e.2 with SaveCheckpoint => true | _ => false end.
Definition is_loss (e : entry) : bool :=
  match e.2 with Loss _ _ => true | _ => false end.
Definition is_optimizer_step (e : entry) : bool :=
  match e.2 with OptimizerStep => true | _ => false end.

(** The timestep vectors of the reverse-step calls of a trace, in order. *)
Definition p_sample_timesteps (l : list entry) : list (list Z) :=
  omap (fun e => match e.2 with PSample _ t _ => Some t | _ => None end) l.

(** The collaborators, over their own state [St] (random generator, model
    parameters, optimizer moments, data-loader position, clock, ...). *)
Record Externals (St : Type) := {
  (** [datetime.datetime.now().strftime('%Y%m%d%H%M%S')] *)
  now : St -> string * St;
  (** [torch.randn(shape)] *)
  randn : list nat -> St -> tensor * St;
  (** [diffusion.p_sample(x, t)] *)
  p_sample : tensor -> list Z -> St -> tensor * St;
  (** [diffusion.loss(data)] *)
  loss : tensor -> St -> R * St;
  (** iterating [data_loader] once: the (inputs, labels) batches of an epoch *)
  batches : St -> list (tensor * list Z) * St;
  (** what any other call does to the collaborators' state *)
  effect : call -> St -> St
}.
Arguments now {St}.
Arguments randn {St}.
Arguments p_sample {St}.
Arguments loss {St}.
Arguments batches {St}.
Arguments effect {St}.

(** ** The driver's state and its monad *)

Record world (St : Type) := World {
  ext : St;
  grad_enabled : bool;
  paths : gset string;
  files : gmap string byte_image
}.
Arguments World {St}.
Arguments ext {St}.
Arguments grad_enabled {St}.
Arguments paths {St}.
Arguments files {St}.

(** A computation returns a value, the new state and the calls it made. *)
Definition M (St A : Type) : Type := world St -> A * world St * list entry.

Definition ret {St A : Type} (a : A) : M St A := fun w => (a, w, []).

Definition bind {St A B : Type} (m : M St A) (k : A -> M St B) : M St B :=
  fun w =>
    let '(a, w1, l1) := m w in
    let '(b, w2, l2) := k a w1 in
    (b, w2, l1 ++ l2).

Notation "x <- m ;; k" := (bind m (fun x => k))
  (at level 100, m at next level, right associativity).
Notation "m ;;; k" := (bind m (fun _ => k))
  (at level 100, right associativity).

Definition trace {St A : Type} (m : M St A) (w : world St) : list entry := (m w).2.
Definition final {St A : Type} (m : M St A) (w : world St) : world St := (m w).1.2.
Definition result {St A : Type} (m : M St A) (w : world St) : A := (m w).1.1.

(** A [for] loop over a list. *)
Fixpoint for_each {St A : Type} (l : list A) (body : A -> M St unit) : M St unit :=
  match l with
  | [] => ret tt
  | a :: l' => body a ;;; for_each l' body
  end.

(** A [for] loop that reassigns one variable. *)
Fixpoint for_fold {St A X : Type} (l : list A) (x : X) (body : A -> X -> M St X) : M St X :=
  match l with
  | [] => ret x
  | a :: l' => x' <- body a x ;; for_fold l' x' body
  end.

Section Driver.
Context {St : Type}.
Variable E : Externals St.

(** A call whose result the driver uses. *)
Definition ext_call {A : Type} (f : St -> A * St) (c : A -> call) : M St A :=
  fun w =>
    let '(a, s) := f (ext w) in
    (a, World s (grad_enabled w) (paths w) (files w), [(grad_enabled w, c a)]).

(** A call made for its effect only. *)
Definition emit (c : call) : M St unit :=
  fun w =>
    (tt, World (effect E c (ext w)) (grad_enabled w) (paths w) (files w),
     [(grad_enabled w, c)]).

(** [os.path.exists(p)] *)
Definition path_exists (p : string) : M St bool :=
  fun w => let r := bool_decide (p ∈ paths w) in (r, w, [(grad_enabled w, PathExists p r)]).

(** [os.makedirs(p)] *)
Definition makedirs (p : string) : M St unit :=
  fun w =>
    (tt, World (ext w) (grad_enabled w) ({[ p ]} ∪ paths w) (files w),
     [(grad_enabled w, Makedirs p)]).

(** [Image.fromarray(a, mode).save(p)] *)
Definition image_save (p mode : string) (a : byte_image) : M St unit :=
  fun w =>
    (tt, World (ext w) (grad_enabled w) ({[ p ]} ∪ paths w) (<[ p := a ]> (files w)),
     [(grad_enabled w, ImageSave p mode a)]).

(** [with torch.no_grad(): body]: gradient tracking is off inside the block
    and the previous mode is restored on exit. *)
Definition no_grad {A : Type} (body : M St A) : M St A :=
  fun w =>
    let '(a, w', l) := body (World (ext w) false (paths w) (files w)) in
    (a, World (ext w') (grad_enabled w) (paths w') (files w'), l).

(** One iteration of the reverse loop of [sample]. *)
Definition sample_step (c : Configs) (t_ : nat) (x : tensor) : M St tensor :=
  let t := (Z.of_nat (n_steps c) - Z.of_nat t_ - 1)%Z in
  let ts := new_full (n_samples c) t in
  ext_call (p_sample E x ts) (PSample x ts).

(** The image-saving loop body of [sample]. *)
Definition save_image (save_dir : string) (ia : nat * byte_image) : M St unit :=
  let '(i, img_tensor) := ia in
  let img_array := transpose_1_2_0 0%Z img_tensor in
  let file_name := "image_" +:+ pretty i +:+ ".jpg" in
  let file_path := path_join save_dir file_name in
  image_save file_path "RGB" img_array.

Definition save_dir_of (timestamp : string) : string :=
  "./mnt/data/images_" +:+ timestamp +:+ "/".

(** The block under [with torch.no_grad():] in [sample]. *)
Definition sample_body (c : Configs) (save_dir : string) : M St unit :=
  x <- ext_call (randn E [n_samples c; image_channels c; image_size c; image_size c])
                (Randn [n_samples c; image_channels c; image_size c; image_size c]) ;;
  emit (MonitIterate "Sample") ;;;
  x <- for_fold (seq 0 (n_steps c)) x (sample_step c) ;;
  emit (TrackerSaveSample x) ;;;
  let scaled_data := byte (mul_scalar (add_scalar x 1) 127.5) in
  for_each (enumerate scaled_data) (save_image save_dir).

(** [Configs.sample] *)
Definition sample (c : Configs) : M St unit :=
  timestamp <- ext_call (now E) Now ;;
  let save_dir := save_dir_of timestamp in
  present <- path_exists save_dir ;;
  (if negb present then makedirs save_dir else ret tt) ;;;
  no_grad (sample_body c save_dir).

(** The loop body of [train]. *)
Definition train_batch (b : tensor * list Z) : M St unit :=
  let '(inputs, labels) := b in
  emit AddGlobalStep ;;;
  emit (ToDevice inputs) ;;;
  let data := inputs in
  emit ZeroGrad ;;;
  l <- ext_call (loss E data) (Loss data) ;;
  emit (Backward l) ;;;
  emit OptimizerStep ;;;
  emit (TrackerSaveLoss l).

(** [Configs.train] *)
Definition train : M St unit :=
  bs <- ext_call (batches E) (fun _ => MonitIterate "Train") ;;
  for_each bs train_batch.

(** The loop body of [run]. *)
Definition run_epoch (c : Configs) : M St unit :=
  train ;;;
  emit NewLine ;;;
  sample c ;;;
  emit SaveCheckpoint.

(** [Configs.run] *)
Definition run (c : Configs) : M St unit :=
  emit (MonitLoop (epochs c)) ;;;
  for_each (seq 0 (epochs c)) (fun _ => run_epoch c).

(** [Configs.init] *)
Definition init (c : Configs) : M St unit :=
  emit (NewUNet (image_channels c) (n_channels c) (channel_multipliers c) (is_attention c)) ;;;
  emit (NewDenoiseDiffusion (n_steps c)) ;;;
  emit NewDataset ;;;
  emit (NewDataLoader (batch_size c)) ;;;
  emit (NewAdam (learning_rate c)) ;;;
  emit (TrackerSetImage "sample").

End Driver.

(** ** The orchestration layer *)

(** Modelled from the spec: labml's [experiment.configs(configs, overrides)]
    is imported, not part of [experiment.py]; by the comment above the call
    in [main] and the design notes of the specification, a value passed in
    the dictionary replaces the class default of the field it names. *)
Definition override (ov : gmap string nat) (key : string) (default : nat) : nat :=
  match ov !! key with
  | Some v => v
  | None => default
  end.

(** Modelled from the spec: the configuration after
    [experiment.configs(c, ov)], field by field (the dictionary of [main]
    holds integers only). *)
Definition experiment_configs (c : Configs) (ov : gmap string nat) : Configs := {|
  image_channels := override ov "image_channels" (image_channels c);
  image_size := override ov "image_size" (image_size c);
  n_channels := override ov "n_channels" (n_channels c);
  channel_multipliers := channel_multipliers c;
  is_attention := is_attention c;
  n_steps := override ov "n_steps" (n_steps c);
  batch_size := override ov "batch_size" (batch_size c);
  n_samples := override ov "n_samples" (n_samples c);
  learning_rate := learning_rate c;
  epochs := override ov "epochs" (epochs c)
|}.

(** The dictionary literal passed in [main]. *)
Definition main_overrides : gmap string nat :=
  <[ "image_channels" := 3 ]> (<[ "epochs" := 100 ]> ∅).

(** The configuration [main] runs with. *)
Definition main_configs : Configs := experiment_configs default_configs main_overrides.

(** [main] *)
Definition main {St : Type} (E : Externals St) : M St unit :=
  emit E (ExperimentCreate "diffuse") ;;;
  let configs := default_configs in
  emit E (ExperimentConfigs main_overrides) ;;;
  let configs := experiment_configs configs main_overrides in
  init E configs ;;;
  emit E AddPytorchModels ;;;
  emit E ExperimentStart ;;;
  run E configs.

(** ** The diffusion process

    [DenoiseDiffusion] is imported from [labml_nn.diffusion.ddpm]; its code
    is not part of [experiment.py].  The definitions of this module follow
    sections 4.1 to 4.4 of the specification. *)
Module DenoiseDiffusion.

(** Modelled from the spec: the noise schedule (4.1), [alpha_t = 1 - beta_t]. *)
Definition alpha (betas : list R) : list R := map (fun b => (1 - b)%R) betas.

(** Modelled from the spec: the running product used by the schedule (4.1). *)
Fixpoint cumprod_from (acc : R) (l : list R) : list R :=
  match l with
  | [] => []
  | a :: l' => (acc * a)%R :: cumprod_from (acc * a)%R l'
  end.

(** Modelled from the spec: the noise schedule (4.1), [alpha_bar_t], the
    product of [alpha_0 .. alpha_t]. *)
Definition alpha_bar (betas : list R) : list R := cumprod_from 1%R (alpha betas).

(** Modelled from the spec: the O(1) lookup of a schedule value by timestep (4.1). *)
Definition at_step (l : list R) (t : nat) : R := nth t l 0%R.

(** Modelled from the spec: the posterior variance (4.1),
    [beta_t * (1 - alpha_bar_(t-1)) / (1 - alpha_bar_t)], and [beta_0] at 0. *)
Definition posterior_variance (betas : list R) (t : nat) : R :=
  match t with
  | O => at_step betas 0
  | Datatypes.S t' =>
      (at_step betas t * (1 - at_step (alpha_bar betas) t')
       / (1 - at_step (alpha_bar betas) t))%R
  end.

(** Modelled from the spec: elementwise combination of two samples (4.2, 4.4). *)
Definition image_zip (f : R -> R -> R) (a b : image) : image :=
  zip_with (zip_with (zip_with f)) a b.

(** Modelled from the spec: elementwise combination of two batches (4.2, 4.4). *)
Definition tzip (f : R -> R -> R) (a b : tensor) : tensor :=
  zip_with (image_zip f) a b.

(** Modelled from the spec: the forward corruption (4.2),
    [sqrt alpha_bar_t * x0 + sqrt (1 - alpha_bar_t) * eps], with the
    coefficients of each sample's own timestep. *)
Definition q_sample (betas : list R) (x0 : tensor) (ts : list Z) (eps : tensor) : tensor :=
  zip_with
    (fun xt e =>
       let ab := at_step (alpha_bar betas) (Z.to_nat xt.2) in
       image_zip (fun x n => (sqrt ab * x + sqrt (1 - ab) * n)%R) xt.1 e)
    (zip x0 ts) eps.

(** Modelled from the spec: all the elements of a batch (4.3, the reduction
    is over the batch and all spatial and channel elements). *)
Definition flatten (x : tensor) : list R := concat (concat (concat x)).

(** Modelled from the spec: the sum of a list of reals (4.3). *)
Definition sum_list (l : list R) : R := fold_right Rplus 0%R l.

(** Modelled from the spec: the mean squared error between two batches (4.3). *)
Definition mse (a b : tensor) : R :=
  let d := flatten (tzip (fun u v => ((u - v) * (u - v))%R) a b) in
  (sum_list d / INR (length d))%R.

(** Modelled from the spec: the training loss (4.3) for given draws: the
    timesteps [ts], the noise [eps], and the NoisePredictor [predict]. *)
Definition loss (betas : list R) (predict : tensor -> list Z -> tensor)
    (x0 : tensor) (ts : list Z) (eps : tensor) : R :=
  let xt := q_sample betas x0 ts eps in
  let eps_hat := predict xt ts in
  mse eps eps_hat.

(** Modelled from the spec: the posterior mean of the reverse step (4.4),
    [(1 / sqrt alpha_t) * (x - (beta_t / sqrt (1 - alpha_bar_t)) * eps_hat)]. *)
Definition posterior_mean (betas : list R) (t : nat) (x eps_hat : tensor) : tensor :=
  tzip (fun xv ev =>
          (1 / sqrt (at_step (alpha betas) t)
           * (xv - at_step betas t / sqrt (1 - at_step (alpha_bar betas) t) * ev))%R)
       x eps_hat.

(** Modelled from the spec: the single reverse step (4.4) for a given
    prediction [eps_hat] and a given noise draw [z]: the noise term
    [sqrt posterior_variance_t * z] is added when [t > 0] only. *)
Definition p_sample (betas : list R) (x eps_hat : tensor) (t : Z) (z : tensor) : tensor :=
  let mu := posterior_mean betas (Z.to_nat t) x eps_hat in
  if (0 <? t)%Z
  then tzip (fun m zv => (m + sqrt (posterior_variance betas (Z.to_nat t)) * zv)%R) mu z
  else mu.

(** Modelled from the spec: two batches of the same shape (3, Gaussian noise
    tensor "same shape as Sample"). *)
Definition same_shape (a b : tensor) : Prop :=
  Forall2 (Forall2 (Forall2 (fun u v : list R => length u = length v))) a b.

End DenoiseDiffusion.

(** ** The collaborators of the specification

    An implementation of [Externals] that follows the specification: the
    random generator is a stream of draws read in order, the NoisePredictor
    is a function of its parameters, and the diffusion object holds the
    schedule it was constructed with.  Every NoisePredictor call is
    recorded, as an instrumented predictor would. *)

(** A map over a list that threads a counter. *)
Fixpoint map_acc {A B : Type} (f : nat -> A -> B * nat) (k : nat) (l : list A)
  : list B * nat :=
  match l with
  | [] => ([], k)
  | a :: l' =>
      let '(b, k1) := f k a in
      let '(bs, k2) := map_acc f k1 l' in
      (b :: bs, k2)
  end.

(** A tensor of zeros of shape (n, c, h, w); any other rank gives no data. *)
Definition zeros (shape : list nat) : tensor :=
  match shape with
  | [n; c; h; w] => repeat (repeat (repeat (repeat 0%R w) h) c) n
  | _ => []
  end.

(** A tensor of shape (n, c, h, w). *)
Definition has_shape (n c h w : nat) (x : tensor) : Prop :=
  length x = n
  /\ Forall (fun s : image =>
               length s = c
               /\ Forall (fun ch : list (list R) =>
                            length ch = h /\ Forall (fun row : list R => length row = w) ch) s) x.

Section Reference.
Variable P : Type.
Variable predict : P -> tensor -> list Z -> tensor.
Variable optimizer_step : P -> P.
Variable make_betas : nat -> list R.
Variable gauss : nat -> R.
Variable raw_int : nat -> nat.
Variable clock : nat -> string.
Variable loader : nat -> list (tensor * list Z).

Record ref_state := RefState {
  rng : nat;
  ticks : nat;
  params : P;
  betas : list R;
  predictor_calls : list (tensor * list Z)
}.

(** [torch.randn_like(x)]: one fresh draw per element of [x]. *)
Definition randn_like (k : nat) (x : tensor) : tensor * nat :=
  map_acc (map_acc (map_acc (map_acc (fun i (_ : R) => (gauss i, Datatypes.S i))))) k x.

(** [torch.randn(shape)] *)
Definition ref_randn (shape : list nat) (s : ref_state) : tensor * ref_state :=
  let '(x, k) := randn_like (rng s) (zeros shape) in
  (x, RefState k (ticks s) (params s) (betas s) (predictor_calls s)).

(** [torch.randint(0, T, (n,))]: one draw in [0, T-1] per sample. *)
Definition randint (k T n : nat) : list Z :=
  map (fun i => Z.of_nat (raw_int (k + i) mod T)) (seq 0 n).

(** Modelled from the spec: the reverse step (4.4) as the driver calls it:
    one NoisePredictor call, then the step of [DenoiseDiffusion.p_sample] at
    the timestep the batch shares, with a fresh noise draw when [t > 0]. *)
Definition ref_p_sample (x : tensor) (ts : list Z) (s : ref_state) : tensor * ref_state :=
  let t := hd 0%Z ts in
  let eps_hat := predict (params s) x ts in
  let calls := predictor_calls s ++ [(x, ts)] in
  if (0 <? t)%Z
  then
    let '(z, k) := randn_like (rng s) x in
    (DenoiseDiffusion.p_sample (betas s) x eps_hat t z,
     RefState k (ticks s) (params s) (betas s) calls)
  else
    (DenoiseDiffusion.p_sample (betas s) x eps_hat t [],
     RefState (rng s) (ticks s) (params s) (betas s) calls).

(** Modelled from the spec: the training loss (4.3) as the driver calls it:
    a timestep per sample, noise of the shape of [x0], the forward
    corruption, one NoisePredictor call, the mean squared error. *)
Definition ref_loss (x0 : tensor) (s : ref_state) : R * ref_state :=
  let ts := randint (rng s) (length (betas s)) (length x0) in
  let '(eps, k) := randn_like (rng s + length x0) x0 in
  let xt := DenoiseDiffusion.q_sample (betas s) x0 ts eps in
  (DenoiseDiffusion.loss (betas s) (predict (params s)) x0 ts eps,
   RefState k (ticks s) (params s) (betas s) (predictor_calls s ++ [(xt, ts)])).

Definition ref_now (s : ref_state) : string * ref_state :=
  (clock (ticks s),
   RefState (rng s) (Datatypes.S (ticks s)) (params s) (betas s) (predictor_calls s)).

Definition ref_batches (s : ref_state) : list (tensor * list Z) * ref_state :=
  (loader (rng s),
   RefState (Datatypes.S (rng s)) (ticks s) (params s) (betas s) (predictor_calls s)).

Definition ref_effect (c : call) (s : ref_state) : ref_state :=
  match c with
  | NewDenoiseDiffusion n =>
      RefState (rng s) (ticks s) (params s) (make_betas n) (predictor_calls s)
  | OptimizerStep =>
      RefState (rng s) (ticks s) (optimizer_step (params s)) (betas s) (predictor_calls s)
  | _ => s
  end.

Definition reference : Externals ref_state := {|
  now := ref_now;
  randn := ref_randn;
  p_sample := ref_p_sample;
  loss := ref_loss;
  batches := ref_batches;
  effect := ref_effect
|}.

End Reference.


(** ** Reading a trace *)

(** The reverse-step calls of a trace, in order: input, timesteps, output. *)
Definition p_sample_calls (l : list entry) : list (tensor * list Z * tensor) :=
  omap (fun e => match e.2 with PSample x t r => Some (x, t, r) | _ => None end) l.

(** The calls thread one variable: each call's input is the previous call's
    output, from [x] to [y]. *)
Fixpoint chained (x : tensor) (cs : list (tensor * list Z * tensor)) (y : tensor) : Prop :=
  match cs with
  | [] => x = y
  | (xi, _, r) :: cs' => xi = x /\ chained r cs' y
  end.

(** A run of reverse steps made under gradient mode [g] for a batch of [n]:
    one call per timestep of [ts], in that order, each on the output of the
    one before, each with the timestep repeated [n] times. *)
Inductive steps_from (g : bool) (n : nat) : list Z -> tensor -> list entry -> tensor -> Prop :=
| steps_done x : steps_from g n [] x [] x
| steps_next t ts x r l y :
    steps_from g n ts r l y ->
    steps_from g n (t :: ts) x ((g, PSample x (new_full n t) r) :: l) y.

(** The timesteps T-1, ..., 0. *)
Definition descending (T : nat) : list Z := map Z.of_nat (rev (seq 0 T)).

(** The files [sample] writes for the batch [x] under [dir]. *)
Definition image_saves (dir : string) (x : tensor) : list entry :=
  map (fun ia : nat * byte_image =>
         (false,
          ImageSave (path_join dir ("image_" +:+ pretty ia.1 +:+ ".jpg")) "RGB"
                    (transpose_1_2_0 0%Z ia.2)))
      (enumerate (byte (mul_scalar (add_scalar x 1) 127.5))).

(** The file system after [sample] has written the batch [x] under [dir]. *)
Definition written_files (dir : string) (x : tensor) (m : gmap string byte_image)
  : gmap string byte_image :=
  foldl (fun (m' : gmap string byte_image) (ia : nat * byte_image) =>
           <[ path_join dir ("image_" +:+ pretty ia.1 +:+ ".jpg")
              := transpose_1_2_0 0%Z ia.2 ]> m')
        m (enumerate (byte (mul_scalar (add_scalar x 1) 127.5))).

(** The paths of the image files written in a trace, in order. *)
Definition saved_paths (l : list entry) : list string :=
  omap (fun e => match e.2 with ImageSave p _ _ => Some p | _ => None end) l.

(** The calls [train] makes for one batch with inputs [x] whose loss is [l]. *)
Definition batch_calls (x : tensor) (l : R) : list call :=
  [AddGlobalStep; ToDevice x; ZeroGrad; Loss x l; Backward l; OptimizerStep;
   TrackerSaveLoss l].

(** The calls one iteration of the loop of [run] makes, given the calls of
    its [train] and of its [sample]. *)
Definition epoch_calls (train_calls sample_calls : list call) : list call :=
  train_calls ++ NewLine :: sample_calls ++ [SaveCheckpoint].

(** The Python name of a call, for reading traces. *)
Definition call_name (k : call) : string :=
  match k with
  | Now _ => "datetime.now"
  | PathExists _ _ => "os.path.exists"
  | Makedirs _ => "os.makedirs"
  | Randn _ _ => "torch.randn"
  | MonitIterate _ => "monit.iterate"
  | PSample _ _ _ => "diffusion.p_sample"
  | TrackerSaveSample _ => "tracker.save"
  | ImageSave _ _ _ => "img.save"
  | AddGlobalStep => "tracker.add_global_step"
  | ToDevice _ => "inputs.to"
  | ZeroGrad => "optimizer.zero_grad"
  | Loss _ _ => "diffusion.loss"
  | Backward _ => "loss.backward"
  | OptimizerStep => "optimizer.step"
  | TrackerSaveLoss _ => "tracker.save"
  | MonitLoop _ => "monit.loop"
  | NewLine => "tracker.new_line"
  | SaveCheckpoint => "experiment.save_checkpoint"
  | NewUNet _ _ _ _ => "UNet"
  | NewDenoiseDiffusion _ => "DenoiseDiffusion"
  | NewDataset => "datasets.CIFAR10"
  | NewDataLoader _ => "DataLoader"
  | NewAdam _ => "torch.optim.Adam"
  | TrackerSetImage _ => "tracker.set_image"
  | ExperimentCreate _ => "experiment.create"
  | ExperimentConfigs _ => "experiment.configs"
  | AddPytorchModels => "experiment.add_pytorch_models"
  | ExperimentStart => "experiment.start"
  end.

(** ** A small instance

    Two samples of three channels and one pixel, two diffusion steps, a
    NoisePredictor that returns its input, a generator that draws zeros and
    a clock that stands still. *)
Definition demo_externals : Externals (ref_state unit) :=
  reference unit (fun _ x _ => x) (fun p => p) (fun n => repeat (1 / 2)%R n)
            (fun _ => 0%R) (fun i => i) (fun _ => "20240101000000") (fun _ => []).

Definition demo_configs : Configs := {|
  image_channels := 3;
  image_size := 1;
  n_channels := 64;
  channel_multipliers := [1];
  is_attention := [false];
  n_steps := 2;
  batch_size := 1;
  n_samples := 2;
  learning_rate := 0.00002%R;
  epochs := 1
|}.

Definition demo_state : ref_state unit := RefState unit 0 0 tt (repeat (1 / 2)%R 2) [].

Definition demo_world (existing : gset string) : world (ref_state unit) :=
  World demo_state true existing ∅.

Definition demo_dir : string := "./mnt/data/images_20240101000000/".

(** The same instance with one batch in the data loader. *)
Definition demo_loader_externals : Externals (ref_state unit) :=
  reference unit (fun _ x _ => x) (fun p => p) (fun n => repeat (1 / 2)%R n)
            (fun _ => 0%R) (fun i => i) (fun _ => "20240101000000")
            (fun _ => [([[[[0%R]]]], [7%Z])]).

(** ** Reading gradient modes *)

(** The gradient mode a call of the driver is expected under, when the
    driver was entered under mode [g]: the calls of the sampling block run
    with tracking off, the calls of a training step under [g]. *)
Definition mode_ok (g : bool) (e : entry) : Prop :=
  match e.2 with
  | Randn _ _ | PSample _ _ _ | TrackerSaveSample _ | ImageSave _ _ _ => e.1 = false
  | ZeroGrad | Loss _ _ | Backward _ | OptimizerStep | TrackerSaveLoss _ => e.1 = g
  | _ => True
  end.


(** ** Further small instances *)


(** The small configuration without diffusion steps. *)
Definition demo_configs_no_steps : Configs := {|
  image_channels := 3;
  image_size := 1;
  n_channels := 64;
  channel_multipliers := [1];
  is_attention := [false];
  n_steps := 0;
  batch_size := 1;
  n_samples := 2;
  learning_rate := 0.00002%R;
  epochs := 1
|}.

(** Collaborators whose clock reads the number of the tick. *)
Definition ticking_externals : Externals (ref_state unit) :=
  reference unit (fun _ x _ => x) (fun p => p) (fun n => repeat (1 / 2)%R n)
            (fun _ => 0%R) (fun i => i)
            (fun t => "2024010100000" +:+ pretty (t mod 10)) (fun _ => []).

(** A world of [ticking_externals] at tick [t]. *)
Definition ticking_world (t : nat) : world (ref_state unit) :=
  World (RefState unit 0 t tt (repeat (1 / 2)%R 2) []) true ∅ ∅.
(** * Properties *)

(** ** The monad *)

Section MonadFacts.
Context {St : Type}.
Implicit Types w : world St.

Lemma bind_unfold {A B : Type} (m : M St A) (k : A -> M St B) w :
  bind m k w =
  (result (k (result m w)) (final m w),
   final (k (result m w)) (final m w),
   trace m w ++ trace (k (result m w)) (final m w)).
Proof.
  unfold bind, result, final, trace.
  destruct (m w) as [[a w1] l1]; simpl.
  destruct (k a w1) as [[b w2] l2]; reflexivity.
Qed.

Lemma trace_bind {A B : Type} (m : M St A) (k : A -> M St B) w :
  trace (bind m k) w = trace m w ++ trace (k (result m w)) (final m w).
Proof. unfold trace at 1. now rewrite bind_unfold. Qed.

Lemma final_bind {A B : Type} (m : M St A) (k : A -> M St B) w :
  final (bind m k) w = final (k (result m w)) (final m w).
Proof. unfold final at 1. now rewrite bind_unfold. Qed.

Lemma result_bind {A B : Type} (m : M St A) (k : A -> M St B) w :
  result (bind m k) w = result (k (result m w)) (final m w).
Proof. unfold result at 1. now rewrite bind_unfold. Qed.

Lemma trace_ret {A : Type} (a : A) w : trace (ret a) w = [].
Proof. reflexivity. Qed.

Lemma final_ret {A : Type} (a : A) w : final (ret a) w = w.
Proof. reflexivity. Qed.

Lemma result_ret {A : Type} (a : A) w : result (@ret St A a) w = a.
Proof. reflexivity. Qed.

Variable E : Externals St.

Lemma ext_call_unfold {A : Type} (f : St -> A * St) (c : A -> call) w :
  ext_call f c w =
  ((f (ext w)).1,
   World (f (ext w)).2 (grad_enabled w) (paths w) (files w),
   [(grad_enabled w, c (f (ext w)).1)]).
Proof. unfold ext_call. now destruct (f (ext w)). Qed.

Lemma trace_ext_call {A : Type} (f : St -> A * St) (c : A -> call) w :
  trace (ext_call f c) w = [(grad_enabled w, c (f (ext w)).1)].
Proof. unfold trace. now rewrite ext_call_unfold. Qed.

Lemma final_ext_call {A : Type} (f : St -> A * St) (c : A -> call) w :
  final (ext_call f c) w = World (f (ext w)).2 (grad_enabled w) (paths w) (files w).
Proof. unfold final. now rewrite ext_call_unfold. Qed.

Lemma result_ext_call {A : Type} (f : St -> A * St) (c : A -> call) w :
  result (ext_call f c) w = (f (ext w)).1.
Proof. unfold result. now rewrite ext_call_unfold. Qed.

Lemma trace_emit (c : call) w : trace (emit E c) w = [(grad_enabled w, c)].
Proof. reflexivity. Qed.

Lemma final_emit (c : call) w :
  final (emit E c) w = World (effect E c (ext w)) (grad_enabled w) (paths w) (files w).
Proof. reflexivity. Qed.

Lemma trace_path_exists (p : string) w :
  trace (path_exists (St:=St) p) w = [(grad_enabled w, PathExists p (bool_decide (p ∈ paths w)))].
Proof. reflexivity. Qed.

Lemma final_path_exists (p : string) w : final (path_exists p) w = w.
Proof. reflexivity. Qed.

Lemma result_path_exists (p : string) w :
  result (path_exists p) w = bool_decide (p ∈ paths w).
Proof. reflexivity. Qed.

Lemma trace_makedirs (p : string) w :
  trace (makedirs (St:=St) p) w = [(grad_enabled w, Makedirs p)].
Proof. reflexivity. Qed.

Lemma final_makedirs (p : string) w :
  final (makedirs p) w = World (ext w) (grad_enabled w) ({[ p ]} ∪ paths w) (files w).
Proof. reflexivity. Qed.

Lemma no_grad_unfold {A : Type} (body : M St A) w :
  let w0 := World (ext w) false (paths w) (files w) in
  no_grad body w =
  (result body w0,
   World (ext (final body w0)) (grad_enabled w) (paths (final body w0)) (files (final body w0)),
   trace body w0).
Proof.
  unfold no_grad, result, final, trace; simpl.
  now destruct (body _) as [[a w'] l].
Qed.

Lemma trace_no_grad {A : Type} (body : M St A) w :
  trace (no_grad body) w = trace body (World (ext w) false (paths w) (files w)).
Proof. unfold trace at 1. now rewrite no_grad_unfold. Qed.

Lemma final_no_grad {A : Type} (body : M St A) w :
  final (no_grad body) w =
  let w' := final body (World (ext w) false (paths w) (files w)) in
  World (ext w') (grad_enabled w) (paths w') (files w').
Proof. unfold final at 1. now rewrite no_grad_unfold. Qed.

Lemma trace_for_each_cons {A : Type} (a : A) (l : list A) (body : A -> M St unit) w :
  trace (for_each (a :: l) body) w =
  trace (body a) w ++ trace (for_each l body) (final (body a) w).
Proof. simpl. now rewrite trace_bind. Qed.

Lemma final_for_each_cons {A : Type} (a : A) (l : list A) (body : A -> M St unit) w :
  final (for_each (a :: l) body) w = final (for_each l body) (final (body a) w).
Proof. simpl. now rewrite final_bind. Qed.

Lemma trace_for_fold_cons {A X : Type} (a : A) (l : list A) (x : X)
    (body : A -> X -> M St X) w :
  trace (for_fold (a :: l) x body) w =
  trace (body a x) w ++ trace (for_fold l (result (body a x) w) body) (final (body a x) w).
Proof. simpl. now rewrite trace_bind. Qed.

Lemma final_for_fold_cons {A X : Type} (a : A) (l : list A) (x : X)
    (body : A -> X -> M St X) w :
  final (for_fold (a :: l) x body) w =
  final (for_fold l (result (body a x) w) body) (final (body a x) w).
Proof. simpl. now rewrite final_bind. Qed.

Lemma result_for_fold_cons {A X : Type} (a : A) (l : list A) (x : X)
    (body : A -> X -> M St X) w :
  result (for_fold (a :: l) x body) w =
  result (for_fold l (result (body a x) w) body) (final (body a x) w).
Proof. simpl. now rewrite result_bind. Qed.

End MonadFacts.

Create Rewrite HintDb driver.
#[global] Hint Rewrite @trace_bind @final_bind @result_bind @trace_ret @final_ret
  @result_ret @trace_ext_call @final_ext_call @result_ext_call @trace_emit
  @final_emit @trace_no_grad @final_no_grad @trace_path_exists @final_path_exists
  @result_path_exists @trace_makedirs @final_makedirs : driver.

(** ** The reverse loop *)

Section SampleFacts.
Context {St : Type}.
Variable E : Externals St.
Variable c : Configs.
Implicit Types w : world St.

Lemma descending_seq (T : nat) :
  map (fun t_ => (Z.of_nat T - Z.of_nat t_ - 1)%Z) (seq 0 T) = descending T.
Proof.
  unfold descending. induction T as [|T IH].
  - reflexivity.
  - rewrite seq_S at 2. rewrite rev_app_distr. simpl rev. simpl app.
    rewrite <- cons_seq, <- seq_shift, map_cons, map_map, map_cons.
    f_equal; [lia|]. rewrite <- IH. apply map_ext. intros; lia.
Qed.

Lemma loop_steps (l : list nat) (x : tensor) w :
  steps_from (grad_enabled w) (n_samples c)
    (map (fun t_ => (Z.of_nat (n_steps c) - Z.of_nat t_ - 1)%Z) l)
    x
    (trace (for_fold l x (sample_step E c)) w)
    (result (for_fold l x (sample_step E c)) w).
Proof.
  revert x w. induction l as [|t_ l IH]; intros x w.
  - apply steps_done.
  - rewrite trace_for_fold_cons, result_for_fold_cons.
    set (w1 := final (sample_step E c t_ x) w).
    set (r := result (sample_step E c t_ x) w).
    assert (Hg : grad_enabled w1 = grad_enabled w).
    { unfold w1, sample_step. now rewrite final_ext_call. }
    assert (Ht : trace (sample_step E c t_ x) w =
                 [(grad_enabled w,
                   PSample x (new_full (n_samples c)
                                (Z.of_nat (n_steps c) - Z.of_nat t_ - 1)%Z) r)]).
    { unfold r, sample_step. now rewrite trace_ext_call, result_ext_call. }
    rewrite Ht. simpl. apply steps_next. rewrite <- Hg. apply IH.
Qed.

Lemma loop_world (l : list nat) (x : tensor) w :
  let w' := final (for_fold l x (sample_step E c)) w in
  grad_enabled w' = grad_enabled w /\ paths w' = paths w /\ files w' = files w.
Proof.
  revert x w. induction l as [|t_ l IH]; intros x w; simpl.
  - now rewrite final_ret.
  - rewrite final_bind. destruct (IH (result (sample_step E c t_ x) w)
      (final (sample_step E c t_ x) w)) as (H1 & H2 & H3).
    simpl in H1, H2, H3. rewrite H1, H2, H3.
    unfold sample_step. now rewrite final_ext_call.
Qed.

Lemma loop_invariant (Q : tensor -> Prop)
    (HQ : forall x ts s, Q x -> Q (p_sample E x ts s).1)
    (l : list nat) (x : tensor) w :
  Q x -> Q (result (for_fold l x (sample_step E c)) w).
Proof.
  revert x w. induction l as [|t_ l IH]; intros x w Hx.
  - exact Hx.
  - rewrite result_for_fold_cons. apply IH.
    unfold sample_step. rewrite result_ext_call. now apply HQ.
Qed.

Lemma saves_trace (dir : string) (l : list (nat * byte_image)) w :
  trace (for_each l (save_image (St:=St) dir)) w =
  map (fun ia : nat * byte_image =>
         (grad_enabled w,
          ImageSave (path_join dir ("image_" +:+ pretty ia.1 +:+ ".jpg")) "RGB"
                    (transpose_1_2_0 0%Z ia.2))) l.
Proof.
  revert w. induction l as [|[i a] l IH]; intros w.
  - reflexivity.
  - rewrite trace_for_each_cons, IH. reflexivity.
Qed.

Lemma saves_files (dir : string) (l : list (nat * byte_image)) w :
  files (final (for_each l (save_image (St:=St) dir)) w) =
  foldl (fun (m' : gmap string byte_image) (ia : nat * byte_image) =>
           <[ path_join dir ("image_" +:+ pretty ia.1 +:+ ".jpg")
              := transpose_1_2_0 0%Z ia.2 ]> m')
        (files w) l.
Proof.
  revert w. induction l as [|[i a] l IH]; intros w.
  - reflexivity.
  - rewrite final_for_each_cons, IH. reflexivity.
Qed.

Lemma saves_paths (dir : string) (l : list (nat * byte_image)) w :
  paths w ⊆ paths (final (for_each l (save_image (St:=St) dir)) w).
Proof.
  revert w. induction l as [|[i a] l IH]; intros w.
  - reflexivity.
  - rewrite final_for_each_cons. etransitivity; [|apply IH].
    unfold save_image, image_save, final. simpl. set_solver.
Qed.

Lemma sample_body_trace (dir : string) w :
  grad_enabled w = false ->
  exists xT loop,
    let shape := [n_samples c; image_channels c; image_size c; image_size c] in
    let x0 := (randn E shape (ext w)).1 in
    trace (sample_body E c dir) w =
      (false, Randn shape x0) :: (false, MonitIterate "Sample")
      :: loop ++ (false, TrackerSaveSample xT) :: image_saves dir xT
    /\ steps_from false (n_samples c) (descending (n_steps c)) x0 loop xT
    /\ (forall Q : tensor -> Prop,
          (forall x ts s, Q x -> Q (p_sample E x ts s).1) -> Q x0 -> Q xT)
    /\ files (final (sample_body E c dir) w) = written_files dir xT (files w)
    /\ paths w ⊆ paths (final (sample_body E c dir) w).
Proof.
  intros Hg. unfold sample_body.
  set (shape := [n_samples c; image_channels c; image_size c; image_size c]).
  rewrite trace_bind, trace_ext_call, result_ext_call, final_ext_call, Hg.
  rewrite trace_bind, trace_emit, final_emit. cbn [grad_enabled ext paths files].
  rewrite trace_bind.
  rewrite !final_bind, result_ext_call, final_ext_call, !final_emit.
  cbn [grad_enabled ext paths files]. rewrite Hg.
  set (x0 := (randn E shape (ext w)).1).
  set (w1 := World _ false _ _).
  pose proof (loop_steps (seq 0 (n_steps c)) x0 w1) as Hsteps.
  pose proof (loop_world (seq 0 (n_steps c)) x0 w1) as (Hg1 & Hp1 & Hf1).
  rewrite descending_seq in Hsteps. cbn [grad_enabled paths files w1] in Hsteps, Hg1, Hp1, Hf1.
  exists (result (for_fold (seq 0 (n_steps c)) x0 (sample_step E c)) w1),
         (trace (for_fold (seq 0 (n_steps c)) x0 (sample_step E c)) w1).
  cbn zeta. split; [|split; [exact Hsteps|split; [|split]]].
  - rewrite trace_bind, trace_emit, final_emit, saves_trace.
    cbn [grad_enabled]. rewrite Hg1. reflexivity.
  - intros Q HQ Hx0. now apply loop_invariant.
  - rewrite saves_files. cbn [files]. rewrite Hf1. reflexivity.
  - etransitivity; [|apply saves_paths]. cbn [paths]. now rewrite Hp1.
Qed.

Lemma sample_trace w :
  exists x0 xT loop,
    let g := grad_enabled w in
    let stamp := (now E (ext w)).1 in
    let dir := save_dir_of stamp in
    let present := bool_decide (dir ∈ paths w) in
    let shape := [n_samples c; image_channels c; image_size c; image_size c] in
    trace (sample E c) w =
      (g, Now stamp) :: (g, PathExists dir present)
      :: (if present then [] else [(g, Makedirs dir)])
      ++ (false, Randn shape x0) :: (false, MonitIterate "Sample")
      :: loop ++ (false, TrackerSaveSample xT) :: image_saves dir xT
    /\ steps_from false (n_samples c) (descending (n_steps c)) x0 loop xT
    /\ (exists s, x0 = (randn E shape s).1)
    /\ (forall Q : tensor -> Prop,
          (forall x ts s, Q x -> Q (p_sample E x ts s).1) -> Q x0 -> Q xT)
    /\ files (final (sample E c) w) = written_files dir xT (files w)
    /\ dir ∈ paths (final (sample E c) w).
Proof.
  unfold sample.
  rewrite trace_bind, trace_ext_call, result_ext_call, final_ext_call.
  rewrite !final_bind, result_ext_call, final_ext_call, final_no_grad.
  set (stamp := (now E (ext w)).1). set (dir := save_dir_of stamp).
  rewrite trace_bind, trace_path_exists, result_path_exists, final_path_exists.
  cbn [grad_enabled paths]. set (present := bool_decide (dir ∈ paths w)).
  rewrite trace_bind, trace_no_grad.
  match goal with |- context [trace (sample_body E c dir) ?w1] =>
    destruct (sample_body_trace dir w1 eq_refl)
      as (xT & loop & Htr & Hsteps & Hinv & Hfiles & Hpaths) end.
  cbn zeta in Htr, Hsteps, Hinv.
  eexists _, xT, loop. cbn zeta. cbn [files paths].
  split; [|split; [exact Hsteps|split; [|split; [exact Hinv|split]]]].
  - rewrite Htr. destruct present; reflexivity.
  - eexists. reflexivity.
  - rewrite Hfiles. cbn [files]. destruct present; reflexivity.
  - apply Hpaths. cbn [paths]. unfold present.
    destruct (bool_decide_reflect (dir ∈ paths w)) as [Hin|Hnin]; simpl.
    + exact Hin.
    + set_solver.
Qed.

Lemma saves_ext (dir : string) (l : list (nat * byte_image)) w :
  ext (final (for_each l (save_image (St:=St) dir)) w) = ext w.
Proof.
  revert w. induction l as [|[i a] l IH]; intros w.
  - reflexivity.
  - rewrite final_for_each_cons, IH. reflexivity.
Qed.

(** A counter on the collaborators' state that every reverse step advances
    by one and no other call of [sample] touches has advanced by [n_steps]
    when [sample] returns. *)
Lemma loop_counter (mu : St -> nat)
    (Hp : forall x ts s, mu (p_sample E x ts s).2 = Datatypes.S (mu s))
    (l : list nat) (x : tensor) w :
  mu (ext (final (for_fold l x (sample_step E c)) w)) = mu (ext w) + length l.
Proof.
  revert x w. induction l as [|t_ l IH]; intros x w.
  - simpl. rewrite final_ret. lia.
  - rewrite final_for_fold_cons, IH. unfold sample_step at 1.
    rewrite final_ext_call. cbn [ext]. rewrite Hp. simpl. lia.
Qed.

Lemma sample_counter (mu : St -> nat)
    (Hnow : forall s, mu (now E s).2 = mu s)
    (Hrandn : forall sh s, mu (randn E sh s).2 = mu s)
    (Heff : forall k s, mu (effect E k s) = mu s)
    (Hp : forall x ts s, mu (p_sample E x ts s).2 = Datatypes.S (mu s)) w :
  mu (ext (final (sample E c) w)) = mu (ext w) + n_steps c.
Proof.
  unfold sample.
  rewrite final_bind, final_bind, final_bind, final_no_grad. cbn zeta. cbn [ext].
  unfold sample_body.
  rewrite final_bind, final_bind, final_bind, final_bind, saves_ext, final_emit.
  cbn [ext]. rewrite Heff, loop_counter by exact Hp.
  rewrite final_emit, final_ext_call. cbn [ext]. rewrite Heff, Hrandn, length_seq.
  f_equal.
  match goal with |- context [if ?b then _ else _] => destruct b end;
    autorewrite with driver; cbn [ext]; apply Hnow.
Qed.

End SampleFacts.

(** ** Reading runs of reverse steps *)

Lemma steps_timesteps g n ts x l y :
  steps_from g n ts x l y -> p_sample_timesteps l = map (new_full n) ts.
Proof. induction 1; simpl; [reflexivity|]. unfold p_sample_timesteps in *. simpl. now f_equal. Qed.

Lemma steps_chained g n ts x l y :
  steps_from g n ts x l y -> chained x (p_sample_calls l) y.
Proof. induction 1; simpl; [reflexivity|]. unfold p_sample_calls in *. simpl. now split. Qed.

Lemma steps_length g n ts x l y :
  steps_from g n ts x l y -> length l = length ts.
Proof. induction 1; simpl; [reflexivity|]. now f_equal. Qed.

Lemma steps_calls_length g n ts x l y :
  steps_from g n ts x l y -> length (p_sample_calls l) = length ts.
Proof. induction 1; simpl; [reflexivity|]. unfold p_sample_calls in *. simpl. now f_equal. Qed.

Lemma steps_all g n ts x l y :
  steps_from g n ts x l y ->
  Forall (fun e : entry => e.1 = g /\ exists xi t r, e.2 = PSample xi (new_full n t) r /\ In t ts) l.
Proof.
  induction 1; constructor.
  - split; [reflexivity|]. simpl. eauto 6.
  - eapply Forall_impl; [exact IHsteps_from|].
    intros e (? & xi & t' & r' & ? & ?). split; [assumption|]. exists xi, t', r'. simpl. auto.
Qed.

Lemma image_saves_timesteps dir x : p_sample_timesteps (image_saves dir x) = [].
Proof.
  unfold image_saves, p_sample_timesteps. induction (enumerate _) as [|ia l IH]; simpl; auto.
Qed.

Lemma image_saves_calls dir x : p_sample_calls (image_saves dir x) = [].
Proof.
  unfold image_saves, p_sample_calls. induction (enumerate _) as [|ia l IH]; simpl; auto.
Qed.

Lemma descending_length T : length (descending T) = T.
Proof. unfold descending. now rewrite length_map, length_rev, length_seq. Qed.

Lemma descending_nth T i :
  i < T -> nth i (descending T) 0%Z = (Z.of_nat T - 1 - Z.of_nat i)%Z.
Proof.
  intros Hi. rewrite <- descending_seq.
  set (f := fun t_ : nat => (Z.of_nat T - Z.of_nat t_ - 1)%Z).
  rewrite (nth_indep _ 0%Z (f 0)) by (rewrite length_map, length_seq; exact Hi).
  rewrite map_nth, seq_nth by exact Hi. unfold f. lia.
Qed.

Lemma omap_cons_app {A B : Type} (f : A -> option B) (pre : list A) (a b : A)
    (mid post : list A) (e : A) :
  omap f pre = [] -> f a = None -> f b = None -> f e = None -> omap f post = [] ->
  omap f (pre ++ a :: b :: mid ++ e :: post) = omap f mid.
Proof.
  intros Hpre Ha Hb He Hpost.
  rewrite omap_app, Hpre.
  change (a :: b :: mid ++ e :: post) with ([a; b] ++ mid ++ [e] ++ post).
  rewrite !omap_app, Hpost. simpl. rewrite Ha, Hb, He. simpl. apply app_nil_r.
Qed.

Lemma sample_reverse_steps {St : Type} (E : Externals St) (c : Configs) (w : world St) :
  exists x0 xT loop,
    let tr := trace (sample E c) w in
    let shape := [n_samples c; image_channels c; image_size c; image_size c] in
    steps_from false (n_samples c) (descending (n_steps c)) x0 loop xT
    /\ p_sample_timesteps tr = p_sample_timesteps loop
    /\ p_sample_calls tr = p_sample_calls loop
    /\ In (false, Randn shape x0) tr
    /\ In (false, TrackerSaveSample xT) tr.
Proof.
  destruct (sample_trace E c w) as (x0 & xT & loop & Htr & Hsteps & _).
  cbn zeta in Htr. exists x0, xT, loop. cbn zeta.
  set (pre := if bool_decide _ then [] else _) in Htr.
  assert (Hpre : forall (B : Type) (f : entry -> option B),
             (forall p, f (grad_enabled w, Makedirs p) = None) -> omap f pre = []).
  { intros B f Hf. unfold pre. destruct (bool_decide _); simpl; [reflexivity|].
    now rewrite Hf. }
  rewrite Htr. repeat split.
  - exact Hsteps.
  - unfold p_sample_timesteps. simpl.
    rewrite omap_cons_app; auto using image_saves_timesteps.
  - unfold p_sample_calls. simpl.
    rewrite omap_cons_app; auto using image_saves_calls.
  - right; right. apply in_or_app. right. now left.
  - right; right. apply in_or_app. right. right; right. apply in_or_app. right. now left.
Qed.

(** ** The reference collaborators *)

Section ReferenceFacts.
Variable P : Type.
Variable predict : P -> tensor -> list Z -> tensor.
Variable optimizer_step : P -> P.
Variable make_betas : nat -> list R.
Variable gauss : nat -> R.
Variable raw_int : nat -> nat.
Variable clock : nat -> string.
Variable loader : nat -> list (tensor * list Z).

Local Abbreviation RE :=
  (reference P predict optimizer_step make_betas gauss raw_int clock loader).

Lemma ref_p_sample_calls x ts s :
  predictor_calls P (p_sample RE x ts s).2 = predictor_calls P s ++ [(x, ts)].
Proof.
  simpl. unfold ref_p_sample. destruct (0 <? hd 0%Z ts)%Z; [|reflexivity].
  now destruct (randn_like gauss (rng P s) x).
Qed.

Lemma ref_randn_calls sh s : predictor_calls P (randn RE sh s).2 = predictor_calls P s.
Proof. simpl. unfold ref_randn. now destruct (randn_like gauss (rng P s) (zeros sh)). Qed.

Lemma ref_effect_calls k s : predictor_calls P (effect RE k s) = predictor_calls P s.
Proof. now destruct k. Qed.

Lemma ref_sample_predictor_calls (c : Configs) (w : world (ref_state P)) :
  length (predictor_calls P (ext (final (sample RE c) w))) =
  length (predictor_calls P (ext w)) + n_steps c.
Proof.
  apply (sample_counter RE c (fun s => length (predictor_calls P s))).
  - reflexivity.
  - intros. now rewrite ref_randn_calls.
  - intros. now rewrite ref_effect_calls.
  - intros. rewrite ref_p_sample_calls, length_app. simpl. lia.
Qed.

End ReferenceFacts.

(** ** Claims about [sample] *)

Lemma sample_visits_timesteps {St : Type} (E : Externals St) (c : Configs) (w : world St) :
  let tr := trace (sample E c) w in
  let T := n_steps c in
  p_sample_timesteps tr = map (new_full (n_samples c)) (descending T)
  /\ (forall i, i < T ->
        nth i (p_sample_timesteps tr) [] =
        new_full (n_samples c) (Z.of_nat T - 1 - Z.of_nat i)).
Proof.
  intros tr T.
  destruct (sample_reverse_steps E c w) as (x0 & xT & loop & Hs & Hts & _).
  cbn zeta in Hts. fold tr in Hts.
  assert (Hall : p_sample_timesteps tr = map (new_full (n_samples c)) (descending T)).
  { rewrite Hts. eapply steps_timesteps, Hs. }
  split; [exact Hall|].
  intros i Hi. rewrite Hall.
  rewrite (nth_indep _ [] (new_full (n_samples c) 0%Z))
    by (rewrite length_map, descending_length; exact Hi).
  rewrite map_nth. f_equal. now apply descending_nth.
Qed.

(** C1: in every run of [sample] the reverse loop calls the reverse step
    once per timestep, at T-1, T-2, ..., 0 in that order: the i-th call is
    at timestep T-1-i, there are exactly T calls, each call works on the
    output of the call before it (starting from the initial noise, ending in
    the batch that is logged), and with the reverse step of the
    specification the NoisePredictor has been called exactly T more times
    when [sample] returns. *)
Theorem sample_visits_every_timestep_once :
  forall (St : Type) (E : Externals St) (c : Configs) (w : world St),
    let tr := trace (sample E c) w in
    let T := n_steps c in
    p_sample_timesteps tr = map (new_full (n_samples c)) (descending T)
    /\ length (p_sample_calls tr) = T
    /\ (forall i, i < T ->
          nth i (p_sample_timesteps tr) [] =
          new_full (n_samples c) (Z.of_nat T - 1 - Z.of_nat i))
    /\ (exists x0 xT,
          In (false, Randn [n_samples c; image_channels c; image_size c; image_size c] x0) tr
          /\ chained x0 (p_sample_calls tr) xT
          /\ In (false, TrackerSaveSample xT) tr)
    /\ (forall (P : Type) predict optimizer_step make_betas gauss raw_int clock loader
               (wr : world (ref_state P)),
          let RE := reference P predict optimizer_step make_betas gauss raw_int clock loader in
          length (predictor_calls P (ext (final (sample RE c) wr))) =
          length (predictor_calls P (ext wr)) + T).
Proof.
  intros St E c w tr T.
  destruct (sample_reverse_steps E c w) as (x0 & xT & loop & Hs & Hts & Hcs & Hin0 & HinT).
  cbn zeta in Hts, Hcs, Hin0, HinT. fold tr in Hts, Hcs, Hin0, HinT.
  destruct (sample_visits_timesteps E c w) as [Hall Hnth]. fold tr T in Hall, Hnth.
  split; [exact Hall|]. split.
  { rewrite Hcs, (steps_calls_length _ _ _ _ _ _ Hs). apply descending_length. }
  split; [exact Hnth|]. split.
  { exists x0, xT. repeat split; [exact Hin0| |exact HinT].
    rewrite Hcs. eapply steps_chained, Hs. }
  intros. apply ref_sample_predictor_calls.
Qed.

(** ** Shapes of drawn tensors *)

Lemma map_acc_length {A B : Type} (f : nat -> A -> B * nat) (k : nat) (l : list A) :
  length (map_acc f k l).1 = length l.
Proof.
  revert k. induction l as [|a l IH]; intros k; simpl; [reflexivity|].
  destruct (f k a) as [b k1]. specialize (IH k1).
  destruct (map_acc f k1 l) as [bs k2]. simpl in *. now f_equal.
Qed.

Lemma map_acc_Forall {A B : Type} (Pa : A -> Prop) (Qb : B -> Prop)
    (f : nat -> A -> B * nat) :
  (forall k a, Pa a -> Qb (f k a).1) ->
  forall k l, Forall Pa l -> Forall Qb (map_acc f k l).1.
Proof.
  intros Hf k l Hl. revert k. induction Hl as [|a l Ha Hl IH]; intros k; simpl.
  - constructor.
  - pose proof (Hf k a Ha) as Hb. destruct (f k a) as [b k1]. specialize (IH k1).
    destruct (map_acc f k1 l) as [bs k2]. simpl in *. now constructor.
Qed.

Lemma randn_like_shape (gauss : nat -> R) (n c h w k : nat) (x : tensor) :
  has_shape n c h w x -> has_shape n c h w (randn_like gauss k x).1.
Proof.
  intros [Hn Hx]. unfold randn_like. split.
  - rewrite <- Hn. apply map_acc_length.
  - revert Hx. apply map_acc_Forall. intros k1 s [Hc Hs]. split.
    + rewrite <- Hc. apply map_acc_length.
    + revert Hs. apply map_acc_Forall. intros k2 ch [Hh Hch]. split.
      * rewrite <- Hh. apply map_acc_length.
      * revert Hch. apply map_acc_Forall. intros k3 row Hrow.
        rewrite <- Hrow. apply map_acc_length.
Qed.

Lemma Forall_repeat_intro {A : Type} (Pa : A -> Prop) (a : A) (n : nat) :
  Pa a -> Forall Pa (repeat a n).
Proof. intros Ha. induction n; simpl; now constructor. Qed.

Lemma zeros_shape (n c h w : nat) : has_shape n c h w (zeros [n; c; h; w]).
Proof.
  unfold zeros. split; [apply repeat_length|].
  apply Forall_repeat_intro. split; [apply repeat_length|].
  apply Forall_repeat_intro. split; [apply repeat_length|].
  apply Forall_repeat_intro. apply repeat_length.
Qed.

Lemma ref_randn_shape (P : Type) predict optimizer_step make_betas gauss raw_int clock loader
    (n c h w : nat) (s : ref_state P) :
  has_shape n c h w
    (randn (reference P predict optimizer_step make_betas gauss raw_int clock loader)
           [n; c; h; w] s).1.
Proof.
  simpl. unfold ref_randn.
  pose proof (randn_like_shape gauss n c h w (rng P s) _ (zeros_shape n c h w)) as H.
  now destruct (randn_like gauss (rng P s) (zeros [n; c; h; w])).
Qed.

Lemma randint_length raw_int k T n : length (randint raw_int k T n) = n.
Proof. unfold randint. now rewrite length_map, length_seq. Qed.

Lemma randint_nth raw_int k T n i :
  i < n -> nth i (randint raw_int k T n) 0%Z = Z.of_nat (raw_int (k + i) mod T).
Proof.
  intros Hi. unfold randint.
  set (f := fun j : nat => Z.of_nat (raw_int (k + j) mod T)).
  rewrite (nth_indep _ 0%Z (f 0)) by (rewrite length_map, length_seq; exact Hi).
  now rewrite map_nth, seq_nth by exact Hi.
Qed.

Lemma randint_range raw_int k T n :
  0 < T -> Forall (fun t => (0 <= t < Z.of_nat T)%Z) (randint raw_int k T n).
Proof.
  intros HT. unfold randint. apply List.Forall_forall. intros t Ht.
  apply in_map_iff in Ht as (i & <- & _).
  pose proof (Nat.mod_upper_bound (raw_int (k + i)) T). lia.
Qed.

Lemma sample_grad_restored {St : Type} (E : Externals St) (c : Configs) (w : world St) :
  grad_enabled (final (sample E c) w) = grad_enabled w.
Proof.
  unfold sample. rewrite final_bind, final_bind, final_bind, final_no_grad.
  cbn zeta. cbn [grad_enabled]. rewrite result_path_exists, final_path_exists.
  rewrite final_ext_call.
  match goal with |- context [negb ?b] => destruct b end; reflexivity.
Qed.

(** C5: every reverse-step call of [sample] is given a timestep vector with
    one entry per sample, all equal to the one timestep of that iteration;
    the i-th call gets T-1-i in every entry.  In the training loss of the
    specification the NoisePredictor instead receives one draw per sample:
    entry i of its timestep vector is the i-th fresh integer draw, reduced
    to [0, T-1]. *)
Theorem sample_shares_one_timestep_per_call :
  forall (St : Type) (E : Externals St) (c : Configs) (w : world St),
    let tr := trace (sample E c) w in
    let T := n_steps c in
    Forall (fun ts : list Z =>
              length ts = n_samples c
              /\ exists t, (0 <= t < Z.of_nat T)%Z /\ Forall (eq t) ts)
           (p_sample_timesteps tr)
    /\ (forall i, i < T ->
          nth i (p_sample_timesteps tr) [] =
          repeat (Z.of_nat T - 1 - Z.of_nat i)%Z (n_samples c))
    /\ (forall (P : Type) predict optimizer_step make_betas gauss raw_int clock loader
               (x0 : tensor) (s : ref_state P),
          let RE := reference P predict optimizer_step make_betas gauss raw_int clock loader in
          let ts := randint raw_int (rng P s) (length (betas P s)) (length x0) in
          (exists xt, predictor_calls P (loss RE x0 s).2 = predictor_calls P s ++ [(xt, ts)])
          /\ length ts = length x0
          /\ (forall i, i < length x0 ->
                nth i ts 0%Z =
                Z.of_nat (raw_int (rng P s + i) mod length (betas P s)))).
Proof.
  intros St E c w tr T.
  destruct (sample_visits_timesteps E c w) as [Hall Hnth]. fold tr T in Hall, Hnth.
  split; [|split].
  - rewrite Hall. apply List.Forall_forall. intros ts Hts.
    apply in_map_iff in Hts as (t & <- & Ht). unfold new_full. split.
    + apply repeat_length.
    + exists t. split.
      * unfold descending in Ht. apply in_map_iff in Ht as (i & <- & Hi).
        apply in_rev, in_seq in Hi. lia.
      * apply Forall_repeat_intro. reflexivity.
  - exact Hnth.
  - intros. split; [|split].
    + simpl. unfold ref_loss.
      destruct (randn_like gauss (rng P s + length x0) x0) as [eps k]. simpl.
      eexists. reflexivity.
    + apply randint_length.
    + intros i Hi. now apply randint_nth.
Qed.

Lemma image_saves_no_grad dir x : Forall (fun e : entry => e.1 = false) (image_saves dir x).
Proof.
  unfold image_saves. apply List.Forall_forall. intros e He.
  apply in_map_iff in He as (ia & <- & _). reflexivity.
Qed.

(** C6: [sample] draws its starting batch with [torch.randn] for the shape
    (n_samples, image_channels, image_size, image_size); that call and every
    call after it, in particular each of the n_steps reverse steps, which
    start from the drawn batch, is made with gradient tracking off; no
    reverse step is made before it; the gradient mode in force before
    [sample] is in force again when it returns; and the batch the random
    generator of the specification returns has the requested shape. *)
Theorem sample_starts_from_noise_without_grad :
  forall (St : Type) (E : Externals St) (c : Configs) (w : world St),
    let tr := trace (sample E c) w in
    let shape := [n_samples c; image_channels c; image_size c; image_size c] in
    (exists pre x0 rest,
        tr = pre ++ (false, Randn shape x0) :: rest
        /\ (exists s, x0 = (randn E shape s).1)
        /\ p_sample_calls pre = []
        /\ Forall (fun e : entry => e.1 = false) rest
        /\ length (p_sample_calls rest) = n_steps c
        /\ exists xT, chained x0 (p_sample_calls rest) xT)
    /\ Forall (fun e : entry => is_p_sample e = true -> e.1 = false) tr
    /\ grad_enabled (final (sample E c) w) = grad_enabled w
    /\ (forall (P : Type) predict optimizer_step make_betas gauss raw_int clock loader
               (s : ref_state P),
          let RE := reference P predict optimizer_step make_betas gauss raw_int clock loader in
          has_shape (n_samples c) (image_channels c) (image_size c) (image_size c)
                    (randn RE shape s).1).
Proof.
  intros St E c w tr shape.
  destruct (sample_trace E c w) as (x0 & xT & loop & Htr & Hsteps & Hx0 & _).
  cbn zeta in Htr. fold tr shape in Htr, Hx0.
  set (pre := if bool_decide _ then [] else _) in Htr.
  assert (Hpre : p_sample_calls pre = []).
  { unfold pre. now destruct (bool_decide _). }
  assert (Hrest : Forall (fun e : entry => e.1 = false)
                    ((false, MonitIterate "Sample")
                     :: loop ++ (false, TrackerSaveSample xT)
                     :: image_saves (save_dir_of (now E (ext w)).1) xT)).
  { constructor; [reflexivity|]. apply Forall_app. split.
    - eapply Forall_impl; [exact (steps_all _ _ _ _ _ _ Hsteps)|]. now intros e [? _].
    - constructor; [reflexivity|]. apply image_saves_no_grad. }
  assert (Hcalls : p_sample_calls ((false, MonitIterate "Sample")
                     :: loop ++ (false, TrackerSaveSample xT)
                     :: image_saves (save_dir_of (now E (ext w)).1) xT)
                   = p_sample_calls loop).
  { unfold p_sample_calls. simpl.
    change (loop ++ ?e :: ?post) with (loop ++ [e] ++ post).
    rewrite !omap_app. simpl. fold (p_sample_calls (image_saves (save_dir_of (now E (ext w)).1) xT)).
    rewrite image_saves_calls. now rewrite app_nil_r. }
  split; [|split; [|split]].
  - eexists (_ :: _ :: pre), x0, _. split; [exact Htr|].
    split; [exact Hx0|]. split; [exact Hpre|]. split; [exact Hrest|].
    rewrite Hcalls. split.
    + rewrite (steps_calls_length _ _ _ _ _ _ Hsteps). apply descending_length.
    + exists xT. eapply steps_chained, Hsteps.
  - rewrite Htr. constructor; [discriminate|]. constructor; [discriminate|].
    apply Forall_app. split.
    + unfold pre. destruct (bool_decide _); repeat constructor; discriminate.
    + constructor; [reflexivity|].
      eapply Forall_impl; [exact Hrest|]. now intros e He _.
  - apply sample_grad_restored.
  - intros. apply ref_randn_shape.
Qed.

(** ** Training and the epoch loop *)

Lemma filter_none {A : Type} (f : A -> bool) (l : list A) :
  Forall (fun a => f a = false) l -> List.filter f l = [].
Proof. induction 1 as [|a l Ha _ IH]; simpl; [reflexivity|]. now rewrite Ha. Qed.

Section TrainFacts.
Context {St : Type}.
Variable E : Externals St.
Implicit Types w : world St.

Lemma train_batch_trace (b : tensor * list Z) w :
  exists l,
    trace (train_batch E b) w = map (pair (grad_enabled w)) (batch_calls b.1 l)
    /\ grad_enabled (final (train_batch E b) w) = grad_enabled w.
Proof.
  destruct b as [inputs labels]. unfold train_batch.
  eexists. split.
  - autorewrite with driver. cbn [grad_enabled]. reflexivity.
  - autorewrite with driver. reflexivity.
Qed.

Lemma train_loop_trace (bs : list (tensor * list Z)) w :
  exists ls,
    length ls = length bs
    /\ trace (for_each bs (train_batch E)) w =
       map (pair (grad_enabled w)) (concat (zip_with batch_calls (map fst bs) ls))
    /\ grad_enabled (final (for_each bs (train_batch E)) w) = grad_enabled w.
Proof.
  revert w. induction bs as [|b bs IH]; intros w.
  - exists []. repeat split.
  - destruct (train_batch_trace b w) as (l & Hb & Hg).
    destruct (IH (final (train_batch E b) w)) as (ls & Hlen & Htr & Hg').
    exists (l :: ls). split; [simpl; now f_equal|]. split.
    + rewrite trace_for_each_cons, Hb, Htr, Hg.
      change (concat (zip_with batch_calls (map fst (b :: bs)) (l :: ls)))
        with (batch_calls b.1 l ++ concat (zip_with batch_calls (map fst bs) ls)).
      now rewrite map_app.
    + rewrite final_for_each_cons, Hg'. exact Hg.
Qed.

Lemma train_trace w :
  exists ls,
    length ls = length (batches E (ext w)).1
    /\ trace (train E) w =
       map (pair (grad_enabled w))
           (MonitIterate "Train"
            :: concat (zip_with batch_calls (map fst (batches E (ext w)).1) ls))
    /\ grad_enabled (final (train E) w) = grad_enabled w.
Proof.
  unfold train. rewrite trace_bind, final_bind, trace_ext_call, result_ext_call, final_ext_call.
  match goal with |- context [trace (for_each ?bs _) ?w1] =>
    destruct (train_loop_trace bs w1) as (ls & Hlen & Htr & Hg) end.
  exists ls. split; [exact Hlen|]. split.
  - rewrite Htr. reflexivity.
  - rewrite Hg. reflexivity.
Qed.

End TrainFacts.

Lemma filter_pair_map (g : bool) (f : entry -> bool) (l : list call) :
  List.filter f (map (pair g) l) = map (pair g) (List.filter (fun k => f (g, k)) l).
Proof.
  induction l as [|k l IH]; simpl; [reflexivity|].
  destruct (f (g, k)); simpl; now rewrite IH.
Qed.

Lemma batch_calls_alternate (xs : list tensor) (ls : list R) :
  List.filter (fun k => match k with Loss _ _ | OptimizerStep => true | _ => false end)
              (concat (zip_with batch_calls xs ls)) =
  concat (zip_with (fun x l => [Loss x l; OptimizerStep]) xs ls).
Proof.
  revert ls. induction xs as [|x xs IH]; intros [|l ls]; simpl; try reflexivity.
  now rewrite IH.
Qed.

Lemma batch_calls_steps (xs : list tensor) (ls : list R) :
  length ls = length xs ->
  length (List.filter (fun k => match k with OptimizerStep => true | _ => false end)
                      (concat (zip_with batch_calls xs ls))) = length xs.
Proof.
  revert ls. induction xs as [|x xs IH]; intros [|l ls] Hlen; simpl in *;
    try reflexivity; try discriminate.
  now rewrite IH by lia.
Qed.

(** C7: [train] asks the data loader for the batches of the epoch and then,
    for each batch in turn, makes exactly these calls in this order:
    advance the global step, move the inputs to the device, zero the
    gradients, compute the diffusion loss of the batch, backpropagate that
    loss, take one optimizer step, record that loss.  Loss computations and
    optimizer steps therefore alternate strictly, starting with a loss, and
    there is one optimizer step per batch. *)
Theorem train_alternates_loss_and_update :
  forall (St : Type) (E : Externals St) (w : world St),
    let tr := trace (train E) w in
    let bs := (batches E (ext w)).1 in
    exists ls : list R,
      length ls = length bs
      /\ map snd tr =
         MonitIterate "Train" :: concat (zip_with batch_calls (map fst bs) ls)
      /\ map snd (List.filter (fun e => is_loss e || is_optimizer_step e) tr) =
         concat (zip_with (fun x l => [Loss x l; OptimizerStep]) (map fst bs) ls)
      /\ length (List.filter is_optimizer_step tr) = length bs
      /\ length (List.filter is_loss tr) = length bs.
Proof.
  intros St E w tr bs.
  destruct (train_trace E w) as (ls & Hlen & Htr & _). fold tr bs in Hlen, Htr.
  exists ls. split; [exact Hlen|].
  assert (Hsnd : forall l : list call, map snd (map (pair (grad_enabled w)) l) = l).
  { intros l. rewrite map_map. simpl. apply map_id. }
  split; [now rewrite Htr, Hsnd|]. split; [|split].
  - rewrite Htr, filter_pair_map, Hsnd. simpl.
    rewrite <- batch_calls_alternate. apply filter_ext. now intros [].
  - rewrite Htr, filter_pair_map, length_map. simpl.
    rewrite <- (length_map fst bs). rewrite <- batch_calls_steps with (ls := ls).
    + reflexivity.
    + now rewrite length_map.
  - rewrite Htr, filter_pair_map, length_map. simpl.
    assert (H : forall xs (ls0 : list R), length ls0 = length xs ->
              length (List.filter (fun k => is_loss (grad_enabled w, k))
                                  (concat (zip_with batch_calls xs ls0))) = length xs).
    { induction xs as [|x xs IH]; intros [|l0 ls0] Hl; simpl in *;
        try reflexivity; try discriminate. now rewrite IH by lia. }
    rewrite H by now rewrite length_map. apply length_map.
Qed.

Lemma steps_filter g n ts x l y (f : entry -> bool) :
  steps_from g n ts x l y ->
  (forall e, is_p_sample e = true -> f e = false) ->
  List.filter f l = [].
Proof.
  intros Hs Hf. apply filter_none.
  eapply Forall_impl; [exact (steps_all _ _ _ _ _ _ Hs)|].
  intros [b k] (_ & xi & t & r & Hk & _). simpl in Hk. subst k. now apply Hf.
Qed.

Lemma image_saves_filter dir x (f : entry -> bool) :
  (forall e, is_image_save e = true -> f e = false) ->
  List.filter f (image_saves dir x) = [].
Proof.
  intros Hf. apply filter_none, List.Forall_forall. intros e He.
  unfold image_saves in He. apply in_map_iff in He as (ia & <- & _). now apply Hf.
Qed.

Lemma sample_filter {St : Type} (E : Externals St) (c : Configs) (w : world St)
    (f : entry -> bool) :
  (forall e, is_p_sample e = true -> f e = false) ->
  (forall e, is_image_save e = true -> f e = false) ->
  exists x0 xT,
    let g := grad_enabled w in
    let dir := save_dir_of (now E (ext w)).1 in
    let present := bool_decide (dir ∈ paths w) in
    List.filter f (trace (sample E c) w) =
    List.filter f
      ([(g, Now (now E (ext w)).1); (g, PathExists dir present)]
       ++ (if present then [] else [(g, Makedirs dir)])
       ++ [(false, Randn [n_samples c; image_channels c; image_size c; image_size c] x0);
           (false, MonitIterate "Sample"); (false, TrackerSaveSample xT)]).
Proof.
  intros Hp Hi.
  destruct (sample_trace E c w) as (x0 & xT & loop & Htr & Hsteps & _).
  cbn zeta in Htr. exists x0, xT. cbn zeta. rewrite Htr.
  set (pre := if bool_decide _ then [] else _).
  change (?a :: ?b :: pre ++ ?r :: ?m :: loop ++ ?s :: ?saves)
    with ([a; b] ++ pre ++ [r; m] ++ loop ++ [s] ++ saves).
  match goal with |- _ = List.filter f (_ ++ _ ++ [?r; ?m; ?s]) =>
    change [r; m; s] with ([r; m] ++ [s]) end.
  rewrite !List.filter_app, (steps_filter _ _ _ _ _ _ f Hsteps Hp), (image_saves_filter _ _ f Hi).
  now rewrite !app_nil_r.
Qed.

Lemma sample_no_checkpoint {St : Type} (E : Externals St) (c : Configs) (w : world St) :
  List.filter is_checkpoint (trace (sample E c) w) = [].
Proof.
  destruct (sample_filter E c w is_checkpoint) as (x0 & xT & H);
    [now intros [? []]..|].
  rewrite H. cbn zeta. now destruct (bool_decide _).
Qed.

Lemma sample_one_save {St : Type} (E : Externals St) (c : Configs) (w : world St) :
  length (List.filter is_save_sample (trace (sample E c) w)) = 1.
Proof.
  destruct (sample_filter E c w is_save_sample) as (x0 & xT & H);
    [now intros [? []]..|].
  rewrite H. cbn zeta. now destruct (bool_decide _).
Qed.

Lemma train_filter {St : Type} (E : Externals St) (w : world St) (f : entry -> bool) :
  (forall g k, f (g, k) = true -> k = SaveCheckpoint \/ exists x, k = TrackerSaveSample x) ->
  List.filter f (trace (train E) w) = [].
Proof.
  intros Hf. destruct (train_trace E w) as (ls & _ & Htr & _). rewrite Htr.
  apply filter_none, List.Forall_forall. intros e He.
  apply in_map_iff in He as (k & <- & Hk).
  destruct (f (grad_enabled w, k)) eqn:Hfk; [|reflexivity]. exfalso.
  apply Hf in Hfk. destruct Hk as [<-|Hk].
  { destruct Hfk as [?|[? ?]]; discriminate. }
  apply in_concat in Hk as (cs & Hcs & Hk).
  assert (Hb : exists x l, cs = batch_calls x l).
  { clear -Hcs. revert ls Hcs. induction (map fst (batches E (ext w)).1) as [|x xs IH];
      intros [|l ls] Hcs; simpl in Hcs; try contradiction.
    destruct Hcs as [<-|Hcs]; eauto. }
  destruct Hb as (x & l & ->). unfold batch_calls in Hk. simpl in Hk.
  destruct Hfk as [->|[y ->]]; intuition discriminate.
Qed.

Section RunFacts.
Context {St : Type}.
Variable E : Externals St.
Variable c : Configs.
Implicit Types w : world St.

Lemma run_epoch_trace w :
  let w1 := final (train E) w in
  let w2 := World (effect E NewLine (ext w1)) (grad_enabled w1) (paths w1) (files w1) in
  map snd (trace (run_epoch E c) w) =
    epoch_calls (map snd (trace (train E) w)) (map snd (trace (sample E c) w2))
  /\ List.filter is_checkpoint (trace (run_epoch E c) w)
     = [(grad_enabled (final (sample E c) w2), SaveCheckpoint)]
  /\ length (List.filter is_save_sample (trace (run_epoch E c) w)) = 1.
Proof.
  cbn zeta. unfold run_epoch.
  rewrite trace_bind, trace_bind, trace_bind, trace_emit, trace_emit, final_emit.
  split; [|split].
  - unfold epoch_calls. now rewrite !map_app.
  - rewrite !List.filter_app, sample_no_checkpoint, train_filter.
    + reflexivity.
    + intros g k Hk. destruct k; try discriminate. now left.
  - rewrite !List.filter_app, !length_app, sample_one_save, train_filter.
    + reflexivity.
    + intros g k Hk. destruct k; try discriminate. right. eauto.
Qed.

Lemma run_loop_trace (l : list nat) w :
  let tr := trace (for_each l (fun _ : nat => run_epoch E c)) w in
  exists parts : list (world St * world St),
    length parts = length l
    /\ map snd tr =
       flat_map (fun p => epoch_calls (map snd (trace (train E) p.1))
                                      (map snd (trace (sample E c) p.2))) parts
    /\ Forall (fun p => ext p.2 = effect E NewLine (ext (final (train E) p.1))) parts
    /\ length (List.filter is_checkpoint tr) = length l
    /\ length (List.filter is_save_sample tr) = length l.
Proof.
  revert w. induction l as [|i l IH]; intros w.
  - exists []. repeat split. constructor.
  - cbn zeta in *. destruct (run_epoch_trace w) as (He & Hc & Hs). cbn zeta in He, Hc, Hs.
    destruct (IH (final (run_epoch E c) w)) as (parts & Hlen & Htr & Hlink & Hcs & Hss).
    eexists ((w, _) :: parts). rewrite trace_for_each_cons.
    split; [simpl; now f_equal|]. split; [|split; [|split]].
    + rewrite map_app, He, Htr. reflexivity.
    + constructor; [reflexivity|exact Hlink].
    + rewrite List.filter_app, length_app, Hc, Hcs. reflexivity.
    + rewrite List.filter_app, length_app, Hs, Hss. reflexivity.
Qed.

End RunFacts.

(** C8: the calls of [run] are, after the announcement of the loop, one
    block per epoch, [epochs] blocks in all, and each block is: the calls of
    one run of [train] (all batches, each with its loss and its one
    optimizer step), then the new-line call, then the calls of one run of
    [sample], started from the state [train] and the new-line call left,
    then one checkpoint call.  Over the whole run the sample batch is logged
    once per epoch and the checkpoint is saved once per epoch. *)
Theorem run_trains_then_samples_then_checkpoints :
  forall (St : Type) (E : Externals St) (c : Configs) (w : world St),
    let tr := trace (run E c) w in
    exists parts : list (world St * world St),
      length parts = epochs c
      /\ map snd tr =
         MonitLoop (epochs c)
         :: flat_map (fun p => epoch_calls (map snd (trace (train E) p.1))
                                           (map snd (trace (sample E c) p.2))) parts
      /\ Forall (fun p => ext p.2 = effect E NewLine (ext (final (train E) p.1))) parts
      /\ length (List.filter is_checkpoint tr) = epochs c
      /\ length (List.filter is_save_sample tr) = epochs c.
Proof.
  intros St E c w tr. unfold tr, run. rewrite trace_bind, trace_emit.
  match goal with |- context [trace (for_each ?l _) ?w1] =>
    destruct (run_loop_trace E c l w1) as (parts & Hlen & Htr & Hlink & Hcs & Hss) end.
  cbn zeta in Htr, Hcs, Hss. rewrite length_seq in Hlen, Hcs, Hss.
  exists parts. split; [exact Hlen|]. split; [|split; [exact Hlink|split]].
  - simpl. now rewrite Htr.
  - simpl. exact Hcs.
  - simpl. exact Hss.
Qed.

(** C9: the class default of [epochs] is 10, the dictionary [main] passes to
    [experiment.configs] names [epochs] with 100, and the configuration
    [main] runs with has [epochs = 100]: after its set-up calls [main]
    announces a loop of 100 epochs, runs exactly 100 epoch blocks (train,
    new line, sample, checkpoint) and saves exactly 100 checkpoints. *)
Theorem main_runs_the_overriding_epoch_count :
  epochs default_configs = 10
  /\ main_overrides !! "epochs" = Some 100
  /\ epochs main_configs = 100
  /\ forall (St : Type) (E : Externals St) (w : world St),
       let tr := trace (main E) w in
       exists parts : list (world St * world St),
         length parts = 100
         /\ map snd tr =
            [ExperimentCreate "diffuse"; ExperimentConfigs main_overrides;
             NewUNet 3 64 [1; 2; 2; 4] [false; false; false; true];
             NewDenoiseDiffusion 1000; NewDataset; NewDataLoader 64;
             NewAdam 0.00002%R; TrackerSetImage "sample";
             AddPytorchModels; ExperimentStart; MonitLoop 100]
            ++ flat_map (fun p => epoch_calls (map snd (trace (train E) p.1))
                                              (map snd (trace (sample E main_configs) p.2)))
                        parts
         /\ length (List.filter is_checkpoint tr) = 100.
Proof.
  assert (He : epochs main_configs = 100) by reflexivity.
  split; [reflexivity|]. split; [reflexivity|]. split; [exact He|].
  intros St E w tr. unfold tr, main. fold main_configs.
  unfold init, run. rewrite He.
  repeat rewrite trace_bind. repeat rewrite trace_emit.
  match goal with |- context [trace (for_each ?l _) ?w1] =>
    destruct (run_loop_trace E main_configs l w1) as (parts & Hlen & Htr & _ & Hcs & _) end.
  cbn zeta in Htr, Hcs. rewrite length_seq in Hlen, Hcs.
  exists parts. split; [exact Hlen|]. split.
  - rewrite !map_app, Htr. reflexivity.
  - rewrite !List.filter_app, !length_app, Hcs. reflexivity.
Qed.

(** ** Pixels *)





(** ** File names *)

Lemma string_length_append (s t : string) :
  String.length (s +:+ t) = String.length s + String.length t.
Proof. induction s as [|a s IH]; simpl; [reflexivity|]. now rewrite IH. Qed.

Lemma append_inj_same_length (s1 s2 t1 t2 : string) :
  String.length s1 = String.length s2 -> s1 +:+ t1 = s2 +:+ t2 -> s1 = s2 /\ t1 = t2.
Proof.
  revert s2. induction s1 as [|a s1 IH]; intros [|b s2] Hlen H; simpl in *;
    try discriminate.
  - now split.
  - injection H as -> H. destruct (IH s2) as [-> ->]; [lia|exact H|]. now split.
Qed.

Lemma append_inj_suffix (s1 s2 t : string) : s1 +:+ t = s2 +:+ t -> s1 = s2.
Proof.
  intros H. apply (append_inj_same_length s1 s2 t t); [|exact H].
  apply (f_equal String.length) in H. rewrite !string_length_append in H. lia.
Qed.

Lemma list_ascii_append (s t : string) :
  list_ascii_of_string (s +:+ t) = list_ascii_of_string s ++ list_ascii_of_string t.
Proof. induction s as [|a s IH]; simpl; [reflexivity|]. now rewrite IH. Qed.

Lemma save_dir_ends_with_slash (stamp : string) : ends_with_slash (save_dir_of stamp) = true.
Proof.
  unfold ends_with_slash, save_dir_of.
  rewrite !list_ascii_append, !rev_app_distr. reflexivity.
Qed.

Lemma image_path (stamp : string) (i : nat) :
  path_join (save_dir_of stamp) ("image_" +:+ pretty i +:+ ".jpg") =
  save_dir_of stamp +:+ "image_" +:+ pretty i +:+ ".jpg".
Proof. unfold path_join. simpl starts_with_slash. now rewrite save_dir_ends_with_slash. Qed.


(** ** The files [sample] writes *)

Lemma saved_paths_filter (l : list entry) :
  saved_paths (List.filter is_image_save l) = saved_paths l.
Proof.
  unfold saved_paths. induction l as [|[g k] l IH]; simpl; [reflexivity|].
  destruct k; simpl; first [exact IH | f_equal; exact IH].
Qed.

Lemma image_saves_all (dir : string) (x : tensor) :
  List.filter is_image_save (image_saves dir x) = image_saves dir x.
Proof.
  unfold image_saves. induction (enumerate _) as [|ia l IH]; simpl; [reflexivity|].
  now rewrite IH.
Qed.

Lemma map_fst_enumerate {A : Type} (l : list A) : map fst (enumerate l) = seq 0 (length l).
Proof.
  unfold enumerate. generalize 0. induction l as [|a l IH]; intros n; simpl; [reflexivity|].
  now rewrite IH.
Qed.

Lemma saved_paths_image_saves (dir : string) (x : tensor) :
  saved_paths (image_saves dir x) =
  map (fun i => path_join dir ("image_" +:+ pretty i +:+ ".jpg")) (seq 0 (length x)).
Proof.
  unfold image_saves, saved_paths.
  assert (Hlen : length (byte (mul_scalar (add_scalar x 1) 127.5)) = length x).
  { unfold byte, mul_scalar, add_scalar, tmap. now rewrite !length_map. }
  rewrite <- Hlen, <- map_fst_enumerate, map_map.
  induction (enumerate _) as [|ia l IH]; simpl; [reflexivity|]. f_equal. exact IH.
Qed.

Lemma sample_image_saves {St : Type} (E : Externals St) (c : Configs) (w : world St) :
  exists xT,
    let dir := save_dir_of (now E (ext w)).1 in
    List.filter is_image_save (trace (sample E c) w) = image_saves dir xT
    /\ In (false, TrackerSaveSample xT) (trace (sample E c) w)
    /\ (forall Q : tensor -> Prop,
          (forall x ts s, Q x -> Q (p_sample E x ts s).1) ->
          (forall s, Q (randn E [n_samples c; image_channels c; image_size c; image_size c]
                              s).1) ->
          Q xT)
    /\ files (final (sample E c) w) = written_files dir xT (files w)
    /\ dir ∈ paths (final (sample E c) w).
Proof.
  destruct (sample_trace E c w)
    as (x0 & xT & loop & Htr & Hsteps & (s0 & Hx0) & Hinv & Hfiles & Hdir).
  cbn zeta in Htr. exists xT. cbn zeta.
  split; [|split; [|split; [|split; [exact Hfiles|exact Hdir]]]].
  - rewrite Htr. set (pre := if bool_decide _ then [] else _).
    change (?a :: ?b :: pre ++ ?r :: ?m :: loop ++ ?s :: ?saves)
      with ([a; b] ++ pre ++ [r; m] ++ loop ++ [s] ++ saves).
    rewrite !List.filter_app, image_saves_all.
    rewrite (steps_filter _ _ _ _ _ _ is_image_save Hsteps) by now intros [? []].
    unfold pre. now destruct (bool_decide _).
  - rewrite Htr. right; right. apply in_or_app. right. right; right.
    apply in_or_app. right. now left.
  - intros Q Hstep Hinit. apply Hinv; [exact Hstep|]. rewrite Hx0. apply Hinit.
Qed.

Lemma foldl_insert_other {A V : Type} (key : nat -> string) (val : A -> V)
    (l : list A) (start : nat) (m : gmap string V) (k : string) :
  (forall j, start <= j -> k <> key j) ->
  foldl (fun (m' : gmap string V) (ia : nat * A) => <[ key ia.1 := val ia.2 ]> m')
        m (combine (seq start (length l)) l) !! k = m !! k.
Proof.
  revert start m. induction l as [|a l IH]; intros start m Hk; simpl; [reflexivity|].
  rewrite IH by (intros j Hj; apply Hk; lia).
  apply lookup_insert_ne. intros Heq. now apply (Hk start).
Qed.



Lemma sample_saved_paths {St : Type} (E : Externals St) (c : Configs) (w : world St) :
  (forall s, length (randn E [n_samples c; image_channels c; image_size c; image_size c]
                           s).1 = n_samples c) ->
  (forall x ts s, length (p_sample E x ts s).1 = length x) ->
  exists xT,
    let tr := trace (sample E c) w in
    let dir := save_dir_of (now E (ext w)).1 in
    In (false, TrackerSaveSample xT) tr
    /\ length xT = n_samples c
    /\ List.filter is_image_save tr = image_saves dir xT
    /\ files (final (sample E c) w) = written_files dir xT (files w)
    /\ saved_paths tr =
       map (fun i => dir +:+ "image_" +:+ pretty i +:+ ".jpg") (seq 0 (n_samples c)).
Proof.
  intros Hrandn Hstep.
  destruct (sample_image_saves E c w) as (xT & Hsaves & Hin & Hinv & Hfiles & _).
  cbn zeta in Hsaves, Hfiles. exists xT. cbn zeta.
  assert (Hlen : length xT = n_samples c).
  { apply (Hinv (fun x => length x = n_samples c)); [|exact Hrandn].
    intros x ts s Hx. now rewrite Hstep. }
  split; [exact Hin|]. split; [exact Hlen|]. split; [exact Hsaves|].
  split; [exact Hfiles|].
  rewrite <- saved_paths_filter, Hsaves, saved_paths_image_saves, Hlen.
  apply map_ext. intros i. apply image_path.
Qed.





(** ** The noise schedule *)

Module ScheduleFacts.
Import DenoiseDiffusion.
Local Open Scope R_scope.

Lemma cumprod_from_bounds (l : list R) (acc : R) (t : nat) :
  0 < acc -> Forall (fun a => 0 < a < 1) l -> (t < length l)%nat ->
  0 < nth t (cumprod_from acc l) 0 < acc.
Proof.
  revert acc t. induction l as [|a l IH]; intros acc t Hacc Hl Ht; simpl in Ht; [lia|].
  apply Forall_cons_1 in Hl as [Ha Hl]. destruct t as [|t]; simpl.
  - nra.
  - destruct (IH (acc * a) t) as [H1 H2]; [nra|exact Hl|lia|]. nra.
Qed.

Lemma cumprod_from_decreasing (l : list R) (acc : R) (t : nat) :
  0 < acc -> Forall (fun a => 0 < a < 1) l -> (Datatypes.S t < length l)%nat ->
  nth (Datatypes.S t) (cumprod_from acc l) 0 < nth t (cumprod_from acc l) 0.
Proof.
  revert acc t. induction l as [|a l IH]; intros acc t Hacc Hl Ht; simpl in Ht; [lia|].
  apply Forall_cons_1 in Hl as [Ha Hl]. destruct t as [|t].
  - simpl. apply (cumprod_from_bounds l (acc * a) 0); [nra|exact Hl|lia].
  - change (nth (Datatypes.S t) (cumprod_from (acc * a) l) 0
            < nth t (cumprod_from (acc * a) l) 0).
    apply IH; [nra|exact Hl|lia].
Qed.

Lemma alpha_range (bs : list R) :
  Forall (fun b => 0 < b < 1) bs -> Forall (fun a => 0 < a < 1) (alpha bs).
Proof.
  unfold alpha. induction 1 as [|b bs Hb _ IH]; simpl; constructor; [lra|exact IH].
Qed.

Lemma alpha_length (bs : list R) : length (alpha bs) = length bs.
Proof. unfold alpha. apply length_map. Qed.




End ScheduleFacts.

(** C4: for a schedule built from variances that all lie strictly between
    0 and 1, the cumulative product [alpha_bar] is strictly decreasing:
    [alpha_bar_t < alpha_bar_(t-1)] for every t from 1 to T-1. *)
Theorem alpha_bar_strictly_decreasing :
  forall (bs : list R) (t : nat),
    Forall (fun b => (0 < b < 1)%R) bs ->
    1 <= t -> t < length bs ->
    (DenoiseDiffusion.at_step (DenoiseDiffusion.alpha_bar bs) t
     < DenoiseDiffusion.at_step (DenoiseDiffusion.alpha_bar bs) (t - 1))%R.
Proof.
  intros bs t Hb H1 Ht. destruct t as [|t]; [lia|].
  replace (Datatypes.S t - 1) with t by lia.
  unfold DenoiseDiffusion.at_step, DenoiseDiffusion.alpha_bar.
  apply ScheduleFacts.cumprod_from_decreasing.
  - lra.
  - now apply ScheduleFacts.alpha_range.
  - now rewrite ScheduleFacts.alpha_length.
Qed.

(** The schedule [0.1; 0.2]: alpha_bar is [0.9; 0.72]. *)
Lemma alpha_bar_strictly_decreasing_example :
  Forall (fun b => (0 < b < 1)%R) [0.1%R; 0.2%R]
  /\ (DenoiseDiffusion.at_step (DenoiseDiffusion.alpha_bar [0.1%R; 0.2%R]) 1
      < DenoiseDiffusion.at_step (DenoiseDiffusion.alpha_bar [0.1%R; 0.2%R]) (1 - 1))%R.
Proof.
  assert (H : Forall (fun b => (0 < b < 1)%R) [0.1%R; 0.2%R]).
  { repeat constructor; lra. }
  split; [exact H|].
  apply (alpha_bar_strictly_decreasing [0.1%R; 0.2%R] 1 H); simpl; lia.
Defined.

(** ** Elementwise operations and shapes *)

Module TensorFacts.
Import DenoiseDiffusion.






Lemma map_acc_Forall2 {A B : Type} (Rel : A -> B -> Prop) (f : nat -> A -> B * nat) :
  (forall k a, Rel a (f k a).1) -> forall k l, Forall2 Rel l (map_acc f k l).1.
Proof.
  intros Hf k l. revert k. induction l as [|a l IH]; intros k; simpl; [constructor|].
  pose proof (Hf k a) as Ha. destruct (f k a) as [b k1]. specialize (IH k1).
  destruct (map_acc f k1 l) as [bs k2]. simpl in *. now constructor.
Qed.

(** [randn_like] returns a batch of the shape of its argument. *)
Lemma randn_like_same_shape (gauss : nat -> R) (k : nat) (x : tensor) :
  same_shape x (randn_like gauss k x).1.
Proof.
  unfold same_shape, randn_like.
  apply map_acc_Forall2. intros k1 s.
  apply map_acc_Forall2. intros k2 ch.
  apply map_acc_Forall2. intros k3 row.
  symmetry. apply map_acc_length.
Qed.

Lemma in_zip_with {A B C : Type} (f : A -> B -> C) (l : list A) (k : list B) (c : C) :
  In c (zip_with f l k) -> exists a b, In a l /\ In b k /\ c = f a b.
Proof.
  revert k. induction l as [|a l IH]; intros [|b k] H; simpl in H; try contradiction.
  destruct H as [<-|H].
  - exists a, b. simpl. auto.
  - destruct (IH k H) as (a' & b' & ? & ? & ?). exists a', b'. simpl. auto.
Qed.

Lemma in_flatten_tzip (f : R -> R -> R) (a b : tensor) (r : R) :
  In r (flatten (tzip f a b)) -> exists u v, r = f u v.
Proof.
  unfold flatten, tzip, image_zip. intros H.
  apply in_concat in H as (row & Hrow & Hr).
  apply in_concat in Hrow as (ch & Hch & Hrow).
  apply in_concat in Hch as (s & Hs & Hch).
  apply in_zip_with in Hs as (s1 & s2 & _ & _ & ->).
  apply in_zip_with in Hch as (c1 & c2 & _ & _ & ->).
  apply in_zip_with in Hrow as (r1 & r2 & _ & _ & ->).
  apply in_zip_with in Hr as (u & v & _ & _ & ->). eauto.
Qed.

Lemma sum_list_nonneg (l : list R) :
  (forall r, In r l -> (0 <= r)%R) -> (0 <= sum_list l)%R.
Proof.
  induction l as [|a l IH]; intros H; simpl; [lra|].
  pose proof (H a (or_introl eq_refl)). pose proof (IH (fun r Hr => H r (or_intror Hr))).
  lra.
Qed.

Lemma mse_nonneg (a b : tensor) : (0 <= mse a b)%R.
Proof.
  unfold mse. set (d := flatten _).
  assert (Hs : (0 <= sum_list d)%R).
  { apply sum_list_nonneg. intros r Hr. apply in_flatten_tzip in Hr as (u & v & ->).
    exact (Rle_0_sqr (u - v)). }
  destruct (length d) as [|n] eqn:Hn.
  - destruct d; [|discriminate]. simpl. unfold Rdiv. lra.
  - apply Rmult_le_pos; [exact Hs|]. apply Rlt_le, Rinv_0_lt_compat.
    apply lt_0_INR. lia.
Qed.

End TensorFacts.

(** ** The reverse step and the loss of the specification *)

Lemma train_batch_loss {St : Type} (E : Externals St) (b : tensor * list Z) (w : world St) :
  exists s, In (grad_enabled w, Loss b.1 (loss E b.1 s).1) (trace (train_batch E b) w).
Proof.
  destruct b as [inputs labels]. unfold train_batch. autorewrite with driver.
  cbn [grad_enabled ext]. eexists. simpl. do 3 right. left. reflexivity.
Qed.




(** C3: the training loss of the specification, for a batch x0, draws one
    timestep per sample, each in [0, T-1], draws noise of the shape of x0,
    corrupts x0 with that noise at those timesteps, calls the NoisePredictor
    once on the corrupted batch and the timesteps, and returns the mean
    squared error between the noise and the prediction, a single real
    number that is never negative.  [train] passes each batch to this loss
    and records the value it returns. *)
Theorem loss_is_nonnegative_mean_squared_error :
  forall (P : Type) predict optimizer_step make_betas gauss raw_int clock loader
         (x0 : tensor) (s : ref_state P),
    let RE := reference P predict optimizer_step make_betas gauss raw_int clock loader in
    let T := length (betas P s) in
    let ts := randint raw_int (rng P s) T (length x0) in
    let eps := (randn_like gauss (rng P s + length x0) x0).1 in
    let xt := DenoiseDiffusion.q_sample (betas P s) x0 ts eps in
    (loss RE x0 s).1 = DenoiseDiffusion.mse eps (predict (params P s) xt ts)
    /\ (0 <= (loss RE x0 s).1)%R
    /\ length ts = length x0
    /\ (0 < T -> Forall (fun t => (0 <= t < Z.of_nat T)%Z) ts)
    /\ DenoiseDiffusion.same_shape x0 eps
    /\ predictor_calls P (loss RE x0 s).2 = predictor_calls P s ++ [(xt, ts)]
    /\ (forall (b : tensor * list Z) (w : world (ref_state P)),
          exists l : R,
            In (Loss b.1 l) (map snd (trace (train_batch RE b) w)) /\ (0 <= l)%R).
Proof.
  intros P predict optimizer_step make_betas gauss raw_int clock loader x0 s RE T ts eps xt.
  assert (Hl : forall y (s' : ref_state P),
             (loss RE y s').1 =
             DenoiseDiffusion.loss (betas P s') (predict (params P s')) y
               (randint raw_int (rng P s') (length (betas P s')) (length y))
               (randn_like gauss (rng P s' + length y) y).1).
  { intros y s'. simpl. unfold ref_loss. now destruct (randn_like gauss _ y). }
  split; [|split; [|split; [|split; [|split; [|split]]]]].
  - rewrite Hl. reflexivity.
  - rewrite Hl. apply TensorFacts.mse_nonneg.
  - apply randint_length.
  - apply randint_range.
  - apply TensorFacts.randn_like_same_shape.
  - simpl. unfold ref_loss. unfold xt, ts, eps, T.
    now destruct (randn_like gauss (rng P s + length x0) x0).
  - intros b w. destruct (train_batch_loss RE b w) as (s' & Hin).
    exists (loss RE b.1 s').1. split.
    + apply in_map_iff. eexists. split; [|exact Hin]. reflexivity.
    + rewrite Hl. apply TensorFacts.mse_nonneg.
Qed.

(** ** The small instance *)

Lemma ref_p_sample_length (P : Type) predict optimizer_step make_betas gauss raw_int clock
    loader (x : tensor) (ts : list Z) (s : ref_state P) :
  (forall p y us, length (predict p y us) = length y) ->
  length (p_sample (reference P predict optimizer_step make_betas gauss raw_int clock loader)
                   x ts s).1 = length x.
Proof.
  intros Hpred. simpl. unfold ref_p_sample.
  assert (Hmu : forall bs t e, length e = length x ->
            length (DenoiseDiffusion.posterior_mean bs t x e) = length x).
  { intros bs t e He. unfold DenoiseDiffusion.posterior_mean, DenoiseDiffusion.tzip.
    rewrite length_zip_with. apply Nat.min_l, Nat.eq_le_incl. symmetry. exact He. }
  destruct (0 <? hd 0%Z ts)%Z eqn:Ht.
  - pose proof (map_acc_length
                  (map_acc (map_acc (map_acc (fun i (_ : R) => (gauss i, Datatypes.S i)))))
                  (rng P s) x) as Hz.
    fold (randn_like gauss (rng P s) x) in Hz.
    destruct (randn_like gauss (rng P s) x) as [z k]. cbn [fst] in *.
    unfold DenoiseDiffusion.p_sample. rewrite Ht.
    unfold DenoiseDiffusion.tzip at 1. rewrite length_zip_with, Hmu by apply Hpred.
    apply Nat.min_l, Nat.eq_le_incl. symmetry. exact Hz.
  - cbn [fst]. unfold DenoiseDiffusion.p_sample. rewrite Ht. apply Hmu, Hpred.
Qed.

Lemma demo_randn_length (s : ref_state unit) :
  length (randn demo_externals
                [n_samples demo_configs; image_channels demo_configs;
                 image_size demo_configs; image_size demo_configs] s).1
  = n_samples demo_configs.
Proof. apply ref_randn_shape. Qed.

Lemma demo_p_sample_length (x : tensor) (ts : list Z) (s : ref_state unit) :
  length (p_sample demo_externals x ts s).1 = length x.
Proof. apply ref_p_sample_length. reflexivity. Qed.

Example demo_sample_calls :
  map (fun e : entry => (e.1, call_name e.2))
      (trace (sample demo_externals demo_configs) (demo_world ∅)) =
  [(true, "datetime.now"); (true, "os.path.exists"); (true, "os.makedirs");
   (false, "torch.randn"); (false, "monit.iterate");
   (false, "diffusion.p_sample"); (false, "diffusion.p_sample");
   (false, "tracker.save"); (false, "img.save"); (false, "img.save")].
Proof. vm_compute. reflexivity. Qed.

Example demo_sample_timesteps :
  p_sample_timesteps (trace (sample demo_externals demo_configs) (demo_world ∅)) =
  [[1%Z; 1%Z]; [0%Z; 0%Z]].
Proof. vm_compute. reflexivity. Qed.

Example demo_sample_predictor_calls :
  map snd (predictor_calls unit
             (ext (final (sample demo_externals demo_configs) (demo_world ∅)))) =
  [[1%Z; 1%Z]; [0%Z; 0%Z]].
Proof. vm_compute. reflexivity. Qed.

Example demo_run_calls :
  map (fun e : entry => call_name e.2)
      (trace (run demo_loader_externals demo_configs) (demo_world {[ demo_dir ]})) =
  ["monit.loop"; "monit.iterate";
   "tracker.add_global_step"; "inputs.to"; "optimizer.zero_grad"; "diffusion.loss";
   "loss.backward"; "optimizer.step"; "tracker.save";
   "tracker.new_line";
   "datetime.now"; "os.path.exists"; "torch.randn"; "monit.iterate";
   "diffusion.p_sample"; "diffusion.p_sample"; "tracker.save"; "img.save"; "img.save";
   "experiment.save_checkpoint"].
Proof. vm_compute. reflexivity. Qed.

Example demo_main_epochs : epochs main_configs = 100 /\ image_channels main_configs = 3.
Proof. split; reflexivity. Qed.



(** * Further properties of the driver *)

(** ** What [sample] leaves alone *)

Lemma written_files_other (stamp : string) (x : tensor) (m : gmap string byte_image)
    (p : string) :
  (forall i : nat, p <> save_dir_of stamp +:+ "image_" +:+ pretty i +:+ ".jpg") ->
  written_files (save_dir_of stamp) x m !! p = m !! p.
Proof.
  intros Hp. unfold written_files, enumerate.
  apply (foldl_insert_other
           (fun j => path_join (save_dir_of stamp) ("image_" +:+ pretty j +:+ ".jpg"))
           (transpose_1_2_0 0%Z)).
  intros j _. rewrite image_path. apply Hp.
Qed.

Lemma sample_paths_grow {St : Type} (E : Externals St) (c : Configs) (w : world St) :
  paths w ⊆ paths (final (sample E c) w).
Proof.
  unfold sample. rewrite !final_bind, final_no_grad. cbn zeta. cbn [paths].
  rewrite result_ext_call, final_ext_call, result_path_exists, final_path_exists.
  set (dir := save_dir_of (now E (ext w)).1).
  match goal with |- context [final (sample_body E c dir) ?w1] =>
    destruct (sample_body_trace E c dir w1 eq_refl) as (_ & _ & _ & _ & _ & _ & Hp) end.
  etransitivity; [|exact Hp]. cbn [paths].
  match goal with |- context [negb ?b] => destruct b end; cbn [negb].
  - rewrite final_ret. reflexivity.
  - rewrite final_makedirs. cbn [paths]. set_solver.
Qed.

Lemma sample_keeps_file {St : Type} (E : Externals St) (c : Configs) (w : world St)
    (p : string) :
  (forall i : nat,
      p <> save_dir_of (now E (ext w)).1 +:+ "image_" +:+ pretty i +:+ ".jpg") ->
  files (final (sample E c) w) !! p = files w !! p.
Proof.
  intros Hp.
  destruct (sample_image_saves E c w) as (xT & _ & _ & _ & Hfiles & _).
  cbn zeta in Hfiles. rewrite Hfiles. now apply written_files_other.
Qed.

(** X1: [sample] changes no file other than the images it writes: a path
    that is not [image_<i>.jpg] under the save directory of this call holds
    after the call what it held before, and no path that existed before the
    call is missing after it. *)
Theorem sample_keeps_other_files :
  forall (St : Type) (E : Externals St) (c : Configs) (w : world St) (p : string),
    (forall i : nat,
        p <> save_dir_of (now E (ext w)).1 +:+ "image_" +:+ pretty i +:+ ".jpg") ->
    files (final (sample E c) w) !! p = files w !! p
    /\ paths w ⊆ paths (final (sample E c) w).
Proof.
  intros St E c w p Hp. split; [|apply sample_paths_grow].
  now apply sample_keeps_file.
Qed.

(** A file next to the save directory survives a run of the small instance. *)
Lemma sample_keeps_other_files_example :
  files (final (sample demo_externals demo_configs)
               (World demo_state true {[ "notes.txt" ]} (<[ "notes.txt" := [[[7%Z]]] ]> ∅)))
    !! "notes.txt" = Some [[[7%Z]]]
  /\ ({[ "notes.txt" ]} : gset string)
       ⊆ paths (final (sample demo_externals demo_configs)
                      (World demo_state true {[ "notes.txt" ]}
                             (<[ "notes.txt" := [[[7%Z]]] ]> ∅))).
Proof.
  destruct (sample_keeps_other_files _ demo_externals demo_configs
              (World demo_state true {[ "notes.txt" ]} (<[ "notes.txt" := [[[7%Z]]] ]> ∅))
              "notes.txt")
    as [Hf Hp].
  - intros i. discriminate.
  - split; [exact Hf|exact Hp].
Defined.

(** X2: with a configuration of zero diffusion steps [sample] makes no
    reverse step at all: the batch it logs and turns into images is the
    very batch [torch.randn] returned. *)
Theorem sample_without_steps :
  forall (St : Type) (E : Externals St) (c : Configs) (w : world St),
    n_steps c = 0 ->
    let tr := trace (sample E c) w in
    p_sample_calls tr = []
    /\ exists x0,
         In (false, Randn [n_samples c; image_channels c; image_size c; image_size c] x0) tr
         /\ In (false, TrackerSaveSample x0) tr
         /\ List.filter is_image_save tr =
            image_saves (save_dir_of (now E (ext w)).1) x0.
Proof.
  intros St E c w HT tr.
  destruct (sample_trace E c w) as (x0 & xT & loop & Htr & Hsteps & _).
  cbn zeta in Htr. fold tr in Htr. rewrite HT in Hsteps.
  inversion Hsteps; subst loop xT. simpl in Htr.
  set (pre := if bool_decide _ then [] else _) in Htr.
  assert (Hpre : p_sample_calls pre = [] /\ List.filter is_image_save pre = []).
  { unfold pre. now destruct (bool_decide _). }
  destruct Hpre as [Hpre1 Hpre2].
  split; [|exists x0; split; [|split]].
  - rewrite Htr. unfold p_sample_calls in *. simpl. rewrite omap_app, Hpre1. simpl.
    apply image_saves_calls.
  - rewrite Htr. right; right. apply in_or_app. right. now left.
  - rewrite Htr. right; right. apply in_or_app. right. right; right. now left.
  - rewrite Htr. simpl. rewrite List.filter_app, Hpre2. simpl. apply image_saves_all.
Qed.

(** The small instance without steps saves the two drawn samples. *)
Lemma sample_without_steps_example :
  n_steps demo_configs_no_steps = 0
  /\ p_sample_calls (trace (sample demo_externals demo_configs_no_steps) (demo_world ∅)) = [].
Proof.
  split; [reflexivity|].
  apply (sample_without_steps _ demo_externals demo_configs_no_steps (demo_world ∅)).
  reflexivity.
Defined.

(** ** Pixels, continued *)



(** ** The arrays [sample] saves *)








(** ** What [train] leaves alone *)

Section TrainFrame.
Context {St : Type}.
Variable E : Externals St.
Implicit Types w : world St.

Local Abbreviation keeps_fs m :=
  (forall w, paths (final m w) = paths w /\ files (final m w) = files w).

Lemma keeps_fs_bind {A B : Type} (m : M St A) (k : A -> M St B) :
  keeps_fs m -> (forall a, keeps_fs (k a)) -> keeps_fs (bind m k).
Proof.
  intros Hm Hk w. rewrite final_bind.
  destruct (Hk (result m w) (final m w)) as [-> ->]. apply Hm.
Qed.

Lemma keeps_fs_emit (k : call) : keeps_fs (emit E k).
Proof. intros w. split; reflexivity. Qed.

Lemma keeps_fs_ext_call {A : Type} (f : St -> A * St) (k : A -> call) :
  keeps_fs (ext_call f k).
Proof. intros w. rewrite final_ext_call. split; reflexivity. Qed.

Lemma train_batch_world (b : tensor * list Z) w :
  let w' := final (train_batch E b) w in
  paths w' = paths w /\ files w' = files w.
Proof.
  destruct b as [inputs labels]. revert w. unfold train_batch.
  repeat first [ apply keeps_fs_bind; [|intros ?]
               | apply keeps_fs_emit
               | apply keeps_fs_ext_call ].
Qed.

Lemma train_loop_world (bs : list (tensor * list Z)) w :
  let w' := final (for_each bs (train_batch E)) w in
  paths w' = paths w /\ files w' = files w.
Proof.
  revert w. induction bs as [|b bs IH]; intros w; cbn zeta.
  - split; reflexivity.
  - rewrite final_for_each_cons.
    destruct (IH (final (train_batch E b) w)) as [Hp Hf].
    destruct (train_batch_world b w) as [Hp' Hf']. cbn zeta in *.
    rewrite Hp, Hf. split; assumption.
Qed.

Lemma train_world w :
  let w' := final (train E) w in
  paths w' = paths w /\ files w' = files w /\ grad_enabled w' = grad_enabled w.
Proof.
  cbn zeta. destruct (train_trace E w) as (_ & _ & _ & Hg).
  split; [|split; [|exact Hg]].
  - unfold train. rewrite final_bind.
    match goal with |- context [final (for_each ?bs _) ?w1] =>
      destruct (train_loop_world bs w1) as [Hp _] end.
    cbn zeta in Hp. rewrite Hp, final_ext_call. reflexivity.
  - unfold train. rewrite final_bind.
    match goal with |- context [final (for_each ?bs _) ?w1] =>
      destruct (train_loop_world bs w1) as [_ Hf] end.
    cbn zeta in Hf. rewrite Hf, final_ext_call. reflexivity.
Qed.

Lemma train_calls w :
  Forall (fun e : entry =>
            e.1 = grad_enabled w
            /\ (e.2 = MonitIterate "Train" \/ exists x l, In e.2 (batch_calls x l)))
         (trace (train E) w).
Proof.
  destruct (train_trace E w) as (ls & _ & Htr & _). rewrite Htr.
  apply List.Forall_forall. intros e He.
  apply in_map_iff in He as (k & <- & Hk). split; [reflexivity|]. cbn [snd].
  destruct Hk as [<-|Hk]; [now left|]. right.
  apply in_concat in Hk as (cs & Hcs & Hk). clear Htr.
  revert ls Hcs. induction (map fst (batches E (ext w)).1) as [|x xs IH];
    intros [|l ls] Hcs; simpl in Hcs; try contradiction.
  destruct Hcs as [<-|Hcs]; eauto.
Qed.

End TrainFrame.

Lemma omap_none {A B : Type} (f : A -> option B) (l : list A) :
  Forall (fun a => f a = None) l -> omap f l = [].
Proof. induction 1 as [|a l Ha _ IH]; simpl; [reflexivity|]. now rewrite Ha. Qed.


(** ** Parameter updates *)

Lemma train_alternates {St : Type} (E : Externals St) (w : world St) :
  exists ls : list R,
    length ls = length (batches E (ext w)).1
    /\ length (List.filter is_optimizer_step (trace (train E) w))
       = length (batches E (ext w)).1.
Proof.
  destruct (train_trace E w) as (ls & Hlen & Htr & _). exists ls. split; [exact Hlen|].
  rewrite Htr, filter_pair_map, length_map. simpl.
  rewrite <- (length_map fst (batches E (ext w)).1).
  apply batch_calls_steps. now rewrite length_map.
Qed.

Section TrainReference.
Variable P : Type.
Variable predict : P -> tensor -> list Z -> tensor.
Variable optimizer_step : P -> P.
Variable make_betas : nat -> list R.
Variable gauss : nat -> R.
Variable raw_int : nat -> nat.
Variable clock : nat -> string.
Variable loader : nat -> list (tensor * list Z).

Local Abbreviation RE :=
  (reference P predict optimizer_step make_betas gauss raw_int clock loader).

Local Abbreviation advances a b m :=
  (forall w : world (ref_state P),
      params P (ext (final m w)) = Nat.iter a optimizer_step (params P (ext w))
      /\ length (predictor_calls P (ext (final m w)))
         = length (predictor_calls P (ext w)) + b
      /\ betas P (ext (final m w)) = betas P (ext w)).

Lemma advances_bind {A B : Type} (a1 b1 a2 b2 : nat)
    (m : M (ref_state P) A) (k : A -> M (ref_state P) B) :
  advances a1 b1 m -> (forall x, advances a2 b2 (k x)) ->
  advances (a2 + a1) (b1 + b2) (bind m k).
Proof.
  intros Hm Hk w. rewrite final_bind.
  destruct (Hk (result m w) (final m w)) as (-> & -> & ->).
  destruct (Hm w) as (-> & -> & ->).
  split; [|split; [lia|reflexivity]].
  symmetry. apply Nat.iter_add.
Qed.

Lemma advances_emit (k : call) :
  (forall n, k <> NewDenoiseDiffusion n) ->
  advances (match k with OptimizerStep => 1 | _ => 0 end) 0 (emit RE k).
Proof.
  intros Hk w. rewrite final_emit. cbn [ext]. simpl effect.
  destruct k; simpl; try (repeat split; lia). now destruct (Hk steps).
Qed.

Lemma advances_loss (x : tensor) : advances 0 1 (ext_call (loss RE x) (Loss x)).
Proof.
  intros w. rewrite final_ext_call. cbn [ext]. simpl loss. unfold ref_loss.
  destruct (randn_like gauss _ x) as [eps k]. cbn [snd params predictor_calls betas].
  rewrite length_app. simpl. repeat split.
Qed.

Lemma ref_train_batch_state (b : tensor * list Z) (w : world (ref_state P)) :
  let s := ext w in
  let s' := ext (final (train_batch RE b) w) in
  params P s' = optimizer_step (params P s)
  /\ length (predictor_calls P s') = Datatypes.S (length (predictor_calls P s))
  /\ betas P s' = betas P s.
Proof.
  destruct b as [inputs labels]. cbn zeta.
  assert (H : advances 1 1 (train_batch RE (inputs, labels))).
  { unfold train_batch.
    apply (advances_bind 0 0 1 1); [now apply (advances_emit AddGlobalStep)|intros _].
    apply (advances_bind 0 0 1 1); [now apply (advances_emit (ToDevice inputs))|intros _].
    apply (advances_bind 0 0 1 1); [now apply (advances_emit ZeroGrad)|intros _].
    apply (advances_bind 0 1 1 0); [apply advances_loss|intros l].
    apply (advances_bind 0 0 1 0); [now apply (advances_emit (Backward l))|intros _].
    apply (advances_bind 1 0 0 0); [now apply (advances_emit OptimizerStep)|intros _].
    now apply (advances_emit (TrackerSaveLoss l)). }
  destruct (H w) as (Hp & Hc & Hb). split; [exact Hp|]. split; [lia|exact Hb].
Qed.

Lemma ref_train_loop_state (bs : list (tensor * list Z)) (w : world (ref_state P)) :
  let s := ext w in
  let s' := ext (final (for_each bs (train_batch RE)) w) in
  params P s' = Nat.iter (length bs) optimizer_step (params P s)
  /\ length (predictor_calls P s') = length (predictor_calls P s) + length bs
  /\ betas P s' = betas P s.
Proof.
  revert w. induction bs as [|b bs IH]; intros w; cbn zeta.
  - simpl. rewrite final_ret. repeat split. lia.
  - rewrite final_for_each_cons.
    destruct (IH (final (train_batch RE b) w)) as (Hp & Hc & Hb).
    destruct (ref_train_batch_state b w) as (Hp' & Hc' & Hb'). cbn zeta in *.
    rewrite Hp, Hc, Hb, Hp', Hc', Hb'. split; [|split; [simpl; lia|reflexivity]].
    change (length (b :: bs)) with (Datatypes.S (length bs)).
    now rewrite Nat.iter_succ_r.
Qed.

End TrainReference.

(** X6: with the optimizer of the specification, one epoch of [train] over
    n batches applies the optimizer's update exactly n times to the
    parameters, in sequence, calls the NoisePredictor exactly n times (once
    per loss), and leaves the noise schedule as it was. *)
Theorem train_updates_parameters_once_per_batch :
  forall (P : Type) predict optimizer_step make_betas gauss raw_int clock loader
         (w : world (ref_state P)),
    let RE := reference P predict optimizer_step make_betas gauss raw_int clock loader in
    let n := length (batches RE (ext w)).1 in
    let s' := ext (final (train RE) w) in
    params P s' = Nat.iter n optimizer_step (params P (ext w))
    /\ length (predictor_calls P s') = length (predictor_calls P (ext w)) + n
    /\ betas P s' = betas P (ext w)
    /\ length (List.filter is_optimizer_step (trace (train RE) w)) = n.
Proof.
  intros P predict optimizer_step make_betas gauss raw_int clock loader w RE n s'.
  unfold s', train. rewrite final_bind, result_ext_call, final_ext_call.
  match goal with |- context [final (for_each ?bs _) ?w1] =>
    destruct (ref_train_loop_state P predict optimizer_step make_betas gauss raw_int clock
                loader bs w1) as (Hp & Hc & Hb) end.
  cbn zeta in Hp, Hc, Hb. cbn [ext] in Hp, Hc, Hb. fold RE in Hp, Hc, Hb.
  split; [exact Hp|]. split; [exact Hc|]. split; [exact Hb|].
  destruct (train_alternates RE w) as (ls & Hlen & Hsteps). exact Hsteps.
Qed.

(** ** Gradient modes over a run *)

Lemma train_modes {St : Type} (E : Externals St) (w : world St) :
  Forall (mode_ok (grad_enabled w)) (trace (train E) w).
Proof.
  eapply Forall_impl; [exact (train_calls E w)|].
  intros [g k] [Hg [Hk|(x & l & Hk)]]; cbn [fst snd] in *; unfold mode_ok; cbn [fst snd].
  - now subst k.
  - unfold batch_calls in Hk. simpl in Hk.
    repeat (destruct Hk as [<-|Hk]; [first [exact Hg|exact I]|]). contradiction.
Qed.

Lemma sample_modes {St : Type} (E : Externals St) (c : Configs) (w : world St) (g : bool) :
  Forall (mode_ok g) (trace (sample E c) w).
Proof.
  destruct (sample_trace E c w) as (x0 & xT & loop & Htr & Hsteps & _).
  cbn zeta in Htr. rewrite Htr.
  constructor; [exact I|]. constructor; [exact I|].
  apply Forall_app. split.
  { destruct (bool_decide _); repeat constructor. }
  constructor; [reflexivity|]. constructor; [exact I|].
  apply Forall_app. split.
  - eapply Forall_impl; [exact (steps_all _ _ _ _ _ _ Hsteps)|].
    intros [b k] (Hb & xi & t & r & Hk & _). cbn [fst snd] in *. subst k. exact Hb.
  - constructor; [reflexivity|].
    apply List.Forall_forall. intros e He. unfold image_saves in He.
    apply in_map_iff in He as (ia & <- & _). reflexivity.
Qed.

Section RunModes.
Context {St : Type}.
Variable E : Externals St.
Variable c : Configs.
Implicit Types w : world St.

Lemma run_epoch_modes w :
  Forall (mode_ok (grad_enabled w)) (trace (run_epoch E c) w)
  /\ grad_enabled (final (run_epoch E c) w) = grad_enabled w.
Proof.
  destruct (train_world E w) as (_ & _ & Hg). cbn zeta in Hg.
  unfold run_epoch. split.
  - rewrite trace_bind, trace_bind, trace_bind, trace_emit, trace_emit.
    apply Forall_app. split; [apply train_modes|].
    apply Forall_app. split; [repeat constructor|].
    apply Forall_app. split; [apply sample_modes|repeat constructor].
  - rewrite final_bind, final_bind, final_bind, final_emit. cbn [grad_enabled].
    rewrite sample_grad_restored, final_emit. cbn [grad_enabled]. exact Hg.
Qed.

Lemma run_loop_modes (l : list nat) w :
  Forall (mode_ok (grad_enabled w)) (trace (for_each l (fun _ : nat => run_epoch E c)) w)
  /\ grad_enabled (final (for_each l (fun _ : nat => run_epoch E c)) w) = grad_enabled w.
Proof.
  revert w. induction l as [|i l IH]; intros w.
  - split; [constructor|reflexivity].
  - destruct (run_epoch_modes w) as [Ht Hg].
    destruct (IH (final (run_epoch E c) w)) as [Ht' Hg']. rewrite Hg in Ht', Hg'.
    rewrite trace_for_each_cons, final_for_each_cons. split; [|exact Hg'].
    apply Forall_app. split; assumption.
Qed.

End RunModes.

(** X7: over a whole run the gradient modes of training and sampling stay
    apart: every gradient reset, loss, backward pass, optimizer step and
    loss record is made under the mode [run] was entered with, in every
    epoch, every noise draw, reverse step, sample record and image save is
    made with gradient tracking off, and when [run] returns the mode is the
    one it started with. *)
Theorem run_keeps_gradient_modes_apart :
  forall (St : Type) (E : Externals St) (c : Configs) (w : world St),
    Forall (mode_ok (grad_enabled w)) (trace (run E c) w)
    /\ grad_enabled (final (run E c) w) = grad_enabled w.
Proof.
  intros St E c w. unfold run. rewrite trace_bind, final_bind, trace_emit, final_emit.
  match goal with |- context [trace (for_each ?l _) ?w1] =>
    destruct (run_loop_modes E c l w1) as [Ht Hg] end.
  cbn [grad_enabled] in Ht, Hg. split; [|exact Hg].
  constructor; [exact I|exact Ht].
Qed.

(** ** Counting over a run *)

Lemma sample_calls_length {St : Type} (E : Externals St) (c : Configs) (w : world St) :
  length (p_sample_calls (trace (sample E c) w)) = n_steps c.
Proof.
  destruct (sample_reverse_steps E c w) as (x0 & xT & loop & Hs & _ & Hcs & _).
  cbn zeta in Hcs. rewrite Hcs, (steps_calls_length _ _ _ _ _ _ Hs).
  apply descending_length.
Qed.

Lemma train_no_reverse_step {St : Type} (E : Externals St) (w : world St) :
  p_sample_calls (trace (train E) w) = [] /\ saved_paths (trace (train E) w) = [].
Proof.
  split; apply omap_none; (eapply Forall_impl; [exact (train_calls E w)|]);
    intros [g k] [_ [Hk|(x & l & Hk)]]; cbn [snd] in *;
    try (now subst k); unfold batch_calls in Hk; simpl in Hk;
    repeat (destruct Hk as [<-|Hk]; [reflexivity|]); contradiction.
Qed.

Section RunCounts.
Context {St : Type}.
Variable E : Externals St.
Variable c : Configs.
Hypothesis Hrandn :
  forall s, length (randn E [n_samples c; image_channels c; image_size c; image_size c]
                          s).1 = n_samples c.
Hypothesis Hstep : forall x ts s, length (p_sample E x ts s).1 = length x.
Implicit Types w : world St.

Lemma run_epoch_counts w :
  length (p_sample_calls (trace (run_epoch E c) w)) = n_steps c
  /\ length (saved_paths (trace (run_epoch E c) w)) = n_samples c.
Proof.
  unfold run_epoch. rewrite trace_bind, trace_bind, trace_bind, trace_emit, trace_emit.
  destruct (train_no_reverse_step E w) as [Hp Hs].
  unfold p_sample_calls, saved_paths in *. rewrite !omap_app, Hp, Hs. simpl.
  rewrite !app_nil_r. split.
  - apply sample_calls_length.
  - match goal with |- context [trace (sample E c) ?w1] =>
      destruct (sample_saved_paths E c w1 Hrandn Hstep) as (xT & _ & _ & _ & _ & Hpaths) end.
    cbn zeta in Hpaths. unfold saved_paths in Hpaths. rewrite Hpaths.
    now rewrite length_map, length_seq.
Qed.

Lemma run_loop_counts (l : list nat) w :
  let tr := trace (for_each l (fun _ : nat => run_epoch E c)) w in
  length (p_sample_calls tr) = length l * n_steps c
  /\ length (saved_paths tr) = length l * n_samples c.
Proof.
  revert w. induction l as [|i l IH]; intros w; cbn zeta.
  - split; reflexivity.
  - rewrite trace_for_each_cons.
    destruct (run_epoch_counts w) as [Hp Hs].
    destruct (IH (final (run_epoch E c) w)) as [Hp' Hs']. cbn zeta in Hp', Hs'.
    unfold p_sample_calls, saved_paths in *. rewrite !omap_app, !length_app.
    rewrite Hp, Hs, Hp', Hs'. simpl. split; lia.
Qed.

End RunCounts.

(** X8: when the collaborators keep the number of samples of the batch, a
    run of [epochs] epochs makes exactly epochs * n_steps reverse steps and
    saves exactly epochs * n_samples images; training contributes to
    neither. *)
Theorem run_counts_reverse_steps_and_images :
  forall (St : Type) (E : Externals St) (c : Configs) (w : world St),
    (forall s, length (randn E [n_samples c; image_channels c; image_size c; image_size c]
                             s).1 = n_samples c) ->
    (forall x ts s, length (p_sample E x ts s).1 = length x) ->
    let tr := trace (run E c) w in
    length (p_sample_calls tr) = epochs c * n_steps c
    /\ length (saved_paths tr) = epochs c * n_samples c.
Proof.
  intros St E c w Hrandn Hstep tr. unfold tr, run. rewrite trace_bind, trace_emit.
  match goal with |- context [trace (for_each ?l _) ?w1] =>
    destruct (run_loop_counts E c Hrandn Hstep l w1) as [Hp Hs] end.
  cbn zeta in Hp, Hs. rewrite length_seq in Hp, Hs.
  unfold p_sample_calls, saved_paths in *. simpl. split; assumption.
Qed.

(** One epoch of the small instance: two reverse steps and two images. *)
Lemma run_counts_reverse_steps_and_images_example :
  length (p_sample_calls (trace (run demo_externals demo_configs) (demo_world ∅))) = 1 * 2
  /\ length (saved_paths (trace (run demo_externals demo_configs) (demo_world ∅))) = 1 * 2.
Proof.
  exact (run_counts_reverse_steps_and_images _ demo_externals demo_configs (demo_world ∅)
           demo_randn_length demo_p_sample_length).
Defined.


(** ** Save directories of different calls *)

Lemma string_append_assoc (a b c : string) : (a +:+ b) +:+ c = a +:+ (b +:+ c).
Proof.
  induction a as [|x a IH]; [reflexivity|].
  change (String x ((a +:+ b) +:+ c) = String x (a +:+ (b +:+ c))). now rewrite IH.
Qed.

Lemma image_path_stamp_inj (s1 s2 : string) (i j : nat) :
  String.length s1 = String.length s2 ->
  save_dir_of s1 +:+ "image_" +:+ pretty i +:+ ".jpg" =
  save_dir_of s2 +:+ "image_" +:+ pretty j +:+ ".jpg" ->
  s1 = s2 /\ i = j.
Proof.
  intros Hlen H. unfold save_dir_of in H. rewrite !string_append_assoc in H.
  apply String.app_inj in H.
  apply append_inj_same_length in H as [-> H]; [|exact Hlen].
  split; [reflexivity|].
  apply String.app_inj, String.app_inj, append_inj_suffix in H.
  now apply pretty_nat_inj in H.
Qed.

Lemma sample_saved_paths_form {St : Type} (E : Externals St) (c : Configs) (w : world St) :
  exists n,
    saved_paths (trace (sample E c) w) =
    map (fun i => save_dir_of (now E (ext w)).1 +:+ "image_" +:+ pretty i +:+ ".jpg")
        (seq 0 n).
Proof.
  destruct (sample_image_saves E c w) as (xT & Hsaves & _). cbn zeta in Hsaves.
  exists (length xT).
  rewrite <- saved_paths_filter, Hsaves, saved_paths_image_saves.
  apply map_ext. intros i. apply image_path.
Qed.

(** X9: two calls of [sample] whose timestamps have the same number of
    characters and differ write disjoint sets of files: no image path of the
    one call is an image path of the other (so the images of one epoch are
    not overwritten by a later epoch that starts in a different second). *)
Theorem samples_of_distinct_stamps_do_not_collide :
  forall (St : Type) (E : Externals St) (c1 c2 : Configs) (w1 w2 : world St),
    String.length (now E (ext w1)).1 = String.length (now E (ext w2)).1 ->
    (now E (ext w1)).1 <> (now E (ext w2)).1 ->
    forall p : string,
      In p (saved_paths (trace (sample E c1) w1)) ->
      ~ In p (saved_paths (trace (sample E c2) w2)).
Proof.
  intros St E c1 c2 w1 w2 Hlen Hneq p H1 H2.
  destruct (sample_saved_paths_form E c1 w1) as (n1 & Hp1).
  destruct (sample_saved_paths_form E c2 w2) as (n2 & Hp2).
  rewrite Hp1 in H1. rewrite Hp2 in H2.
  apply in_map_iff in H1 as (i & <- & _). apply in_map_iff in H2 as (j & Heq & _).
  apply image_path_stamp_inj in Heq as [Heq _]; [|now symmetry].
  now apply Hneq.
Qed.

(** Two calls of the small instance one tick apart. *)
Lemma samples_of_distinct_stamps_example :
  String.length (now ticking_externals (ext (ticking_world 0))).1
  = String.length (now ticking_externals (ext (ticking_world 1))).1
  /\ forall p : string,
       In p (saved_paths (trace (sample ticking_externals demo_configs) (ticking_world 0))) ->
       ~ In p (saved_paths (trace (sample ticking_externals demo_configs) (ticking_world 1))).
Proof.
  assert (Hlen : String.length (now ticking_externals (ext (ticking_world 0))).1
                 = String.length (now ticking_externals (ext (ticking_world 1))).1).
  { vm_compute. reflexivity. }
  split; [exact Hlen|].
  apply (samples_of_distinct_stamps_do_not_collide _ ticking_externals demo_configs
           demo_configs (ticking_world 0) (ticking_world 1) Hlen).
  intros H. vm_compute in H. discriminate H.
Defined.

(** ** The schedule and the timesteps *)

Section SampleInvariant.
Context {St : Type}.
Variable E : Externals St.
Variable c : Configs.
Variable Q : St -> Prop.
Hypothesis Hnow : forall s, Q s -> Q (now E s).2.
Hypothesis Hrandn : forall sh s, Q s -> Q (randn E sh s).2.
Hypothesis Hstep : forall x ts s, Q s -> Q (p_sample E x ts s).2.
Hypothesis Hiter : forall name s, Q s -> Q (effect E (MonitIterate name) s).
Hypothesis Hsave : forall x s, Q s -> Q (effect E (TrackerSaveSample x) s).
Implicit Types w : world St.

Lemma loop_ext_invariant (l : list nat) (x : tensor) w :
  Q (ext w) -> Q (ext (final (for_fold l x (sample_step E c)) w)).
Proof.
  revert x w. induction l as [|t_ l IH]; intros x w Hw.
  - exact Hw.
  - rewrite final_for_fold_cons. apply IH. unfold sample_step.
    rewrite final_ext_call. cbn [ext]. now apply Hstep.
Qed.

Lemma sample_ext_invariant w : Q (ext w) -> Q (ext (final (sample E c) w)).
Proof.
  intros Hw. unfold sample.
  rewrite final_bind, final_bind, final_bind, final_no_grad. cbn zeta. cbn [ext].
  unfold sample_body.
  rewrite final_bind, final_bind, final_bind, final_bind, saves_ext, final_emit.
  cbn [ext]. apply Hsave, loop_ext_invariant.
  rewrite final_emit, final_ext_call. cbn [ext]. apply Hiter, Hrandn.
  match goal with |- context [if ?b then _ else _] => destruct b end;
    autorewrite with driver; cbn [ext]; now apply Hnow.
Qed.

End SampleInvariant.

(** X10: the diffusion object is built in [init] with the very step count
    the reverse loop of [sample] runs over: with the collaborators of the
    specification and a schedule constructor that returns one variance per
    step, the schedule has n_steps entries after [init], [sample] leaves it
    as it is, and every timestep [sample] passes to the reverse step is an
    index into it. *)
Theorem init_schedule_covers_sample_timesteps :
  forall (P : Type) predict optimizer_step make_betas gauss raw_int clock loader
         (c : Configs) (w : world (ref_state P)),
    (forall n, length (make_betas n) = n) ->
    let RE := reference P predict optimizer_step make_betas gauss raw_int clock loader in
    let w1 := final (init RE c) w in
    betas P (ext w1) = make_betas (n_steps c)
    /\ betas P (ext (final (sample RE c) w1)) = betas P (ext w1)
    /\ Forall (Forall (fun t => (0 <= t < Z.of_nat (length (betas P (ext w1))))%Z))
              (p_sample_timesteps (trace (sample RE c) w1)).
Proof.
  intros P predict optimizer_step make_betas gauss raw_int clock loader c w Hmk RE w1.
  assert (Hb : betas P (ext w1) = make_betas (n_steps c)).
  { unfold w1, init.
    repeat (rewrite final_bind, final_emit; cbn [ext grad_enabled paths files]).
    rewrite final_emit. reflexivity. }
  split; [exact Hb|]. split.
  - apply (sample_ext_invariant RE c (fun s => betas P s = betas P (ext w1))).
    + intros s Hs. exact Hs.
    + intros sh s Hs. simpl. unfold ref_randn.
      now destruct (randn_like gauss (rng P s) (zeros sh)).
    + intros x ts s Hs. simpl. unfold ref_p_sample.
      destruct (0 <? hd 0%Z ts)%Z; [|exact Hs].
      now destruct (randn_like gauss (rng P s) x).
    + intros name s Hs. exact Hs.
    + intros x s Hs. exact Hs.
    + reflexivity.
  - rewrite Hb, Hmk.
    destruct (sample_visits_timesteps RE c w1) as [Hall _]. cbn zeta in Hall.
    rewrite Hall. apply List.Forall_forall. intros ts Hts.
    apply in_map_iff in Hts as (t & <- & Ht). unfold new_full.
    apply Forall_repeat_intro.
    unfold descending in Ht. apply in_map_iff in Ht as (i & <- & Hi).
    apply in_rev, in_seq in Hi. lia.
Qed.

(** The small instance: after [init] the schedule has the two entries the
    two steps of [sample] index. *)
Lemma init_schedule_covers_sample_timesteps_example :
  (forall n, length (repeat (1 / 2)%R n) = n)
  /\ betas unit (ext (final (init demo_externals demo_configs) (demo_world ∅)))
     = repeat (1 / 2)%R 2.
Proof.
  assert (H : forall n, length (repeat (1 / 2)%R n) = n) by (intros n; apply repeat_length).
  split; [exact H|].
  exact (proj1 (init_schedule_covers_sample_timesteps unit (fun _ x _ => x) (fun p => p)
                  (fun n => repeat (1 / 2)%R n) (fun _ => 0%R) (fun i => i)
                  (fun _ => "20240101000000") (fun _ => []) demo_configs (demo_world ∅) H)).
Defined.

(** ** What a run leaves alone *)

Section RunFrame.
Context {St : Type}.
Variable E : Externals St.
Variable c : Configs.
Variable p : string.
Hypothesis Hp :
  forall (stamp : string) (i : nat),
    p <> save_dir_of stamp +:+ "image_" +:+ pretty i +:+ ".jpg".
Implicit Types w : world St.



End RunFrame.


